(** * pandorasbox: the in-memory virtual filesystem and its path-prefix helpers

    A shallow embedding of [src/utils.go] and [src/vfs/vfs.go].

    Go values are modelled as follows.
    - [string] is Rocq's [string] (a sequence of bytes, as in Go).
    - [uint64], [int64], [int] and [os.FileMode] are [Z]; wrap-around and
      the [int(...)] conversion are written out where the code relies on
      them.
    - Pointers to inodes are locations in an explicit store of inode
      objects, so that aliasing (a directory entry, [fs.root], [fs.dir]
      and an open handle naming one object) is kept.
    - A Go [(value, error)] result is a pair whose second component is
      [option error]; [None] is [nil].
    - A run-time panic or fatal error ends the execution: [Panic]. *)

From Stdlib Require Import ZArith String Ascii List Bool Lia.
From Stdlib Require Import Sorting.Sorted Sorting.Permutation.
From stdpp Require Import base option list sorting strings gmap.

Local Open Scope string_scope.
Local Open Scope Z_scope.

(** ** Package [strings] of the Go standard library

    Only the functions the sources call, with Go's documented behaviour. *)
Module GoStrings.

(** [strings.HasPrefix(s, prefix)] *)
Fixpoint HasPrefix (s prefix : string) {struct prefix} : bool :=
  match prefix, s with
  | EmptyString, _ => true
  | String _ _, EmptyString => false
  | String a prefix', String b s' => Ascii.eqb a b && HasPrefix s' prefix'
  end.

(** [s[n:]] for [n <= len(s)] *)
Fixpoint drop (n : nat) (s : string) : string :=
  match n, s with
  | O, _ => s
  | S _, EmptyString => EmptyString
  | S n', String _ s' => drop n' s'
  end.

(** [strings.Replace(s, old, new, 1)]: the first occurrence of [old]
    in [s] is replaced by [new]; [s] is returned as it is when [old]
    does not occur. The sources only ever pass [n = 1]. *)
Fixpoint Replace1 (s old new : string) : string :=
  if HasPrefix s old then new ++ drop (String.length old) s
  else match s with
       | EmptyString => EmptyString
       | String c s' => String c (Replace1 s' old new)
       end.

(** [strings.TrimLeft(s, "/")]: all leading slashes removed. *)
Fixpoint TrimLeftSlash (s : string) : string :=
  match s with
  | String c s' => if Ascii.eqb c "/" then TrimLeftSlash s' else s
  | EmptyString => EmptyString
  end.

(** [strings.Split(s, "/")]: the substrings between slashes; never
    empty, [Split("", "/")] is the one-element list of the empty string. *)
Fixpoint SplitSlash (s : string) : list string :=
  match s with
  | EmptyString => [EmptyString]
  | String c s' =>
      if Ascii.eqb c "/" then EmptyString :: SplitSlash s'
      else match SplitSlash s' with
           | seg :: segs => String c seg :: segs
           | [] => [String c EmptyString]
           end
  end.

(** [strings.Join(elems, "/")] *)
Fixpoint JoinSlash (elems : list string) : string :=
  match elems with
  | [] => EmptyString
  | [e] => e
  | e :: rest => e ++ "/" ++ JoinSlash rest
  end.

End GoStrings.

(** ** [src/utils.go] *)
Module pandorasbox.
Import GoStrings.

Definition VFSPrefix : string := "vfs://".

Definition IsVFSPath (path : string) : bool :=
  if HasPrefix path VFSPrefix then true else false.

Definition convertVFSPath (path : string) : string :=
  Replace1 path VFSPrefix "/".

Definition ConvertVFSPath (path : string) : string * bool :=
  if IsVFSPath path then (convertVFSPath path, true) else (path, false).

Definition MakeVFSPath (path : string) : string :=
  let vfsPath := Replace1 path "/" VFSPrefix in
  if String.eqb vfsPath path then VFSPrefix ++ path else vfsPath.

End pandorasbox.

(** ** Path helpers of package [vfs]

    Modelled from the spec: [IsAbs], [Split], [Clean], [Join], [Dir] and
    [Base] are called by [src/vfs/vfs.go] but declared in a file of the
    package that is not part of the sources at hand. The spec places
    them outside the core and says only that cleaning is lexical
    (collapse [//], resolve [.] and [..] segments without touching the
    filesystem). They carry the names and signatures of Go's [path]
    package and are given its documented behaviour. *)
Module vfspath.
Import GoStrings.

Definition PathSeparator : ascii := "/"%char.

(** Modelled from the spec: [IsAbs], not under [src/]; a path is
    absolute when it begins with the separator (§4.1). *)
Definition IsAbs (path : string) : bool := HasPrefix path "/".

(** Modelled from the spec: [Split], not under [src/]. It cuts after
    the last slash: [(dir, file)] with [path = dir ++ file]; without a
    slash [dir] is empty. *)
Fixpoint Split (path : string) : string * string :=
  match path with
  | EmptyString => (EmptyString, EmptyString)
  | String c rest =>
      let '(d, f) := Split rest in
      if Ascii.eqb c "/" then (String c d, f)
      else if String.eqb d "" then (EmptyString, String c f)
      else (String c d, f)
  end.

(** Modelled from the spec: a step of [Clean]. One element of the path
    is pushed on the elements kept so far (the head of [kept] is the most
    recent one): an empty element and [.] are dropped, [..] takes back
    the element before it, or stays when there is none to take back and
    the path is not rooted. *)
Definition clean_step (rooted : bool) (kept : list string) (elem : string)
  : list string :=
  if String.eqb elem "" then kept
  else if String.eqb elem "." then kept
  else if String.eqb elem ".." then
    match kept with
    | top :: below => if String.eqb top ".." then elem :: kept else below
    | [] => if rooted then [] else [elem]
    end
  else elem :: kept.

(** Modelled from the spec: [Clean], not under [src/]; the lexical
    cleaning of §4.1. *)
Definition Clean (path : string) : string :=
  if String.eqb path "" then "."
  else
    let rooted := IsAbs path in
    let kept := fold_left (clean_step rooted) (SplitSlash path) [] in
    let body := JoinSlash (rev kept) in
    if rooted then "/" ++ body
    else if String.eqb body "" then "." else body.

(** Modelled from the spec: [Join], not under [src/], for two
    elements, the only arity the sources use: the elements that are not
    empty, with a slash between them, cleaned. *)
Definition Join (a b : string) : string :=
  if String.eqb a "" then (if String.eqb b "" then "" else Clean b)
  else Clean (a ++ "/" ++ b).

(** Modelled from the spec: [Dir], not under [src/]: all but the last
    element of the path, cleaned. *)
Definition Dir (path : string) : string := Clean (fst (Split path)).

(** Modelled from the spec: [Base], not under [src/]: the last element
    of the path, trailing slashes apart. *)
Definition Base (path : string) : string :=
  if String.eqb path "" then "."
  else
    match last (filter (fun s => s ≠ "") (SplitSlash path)) with
    | Some s => s
    | None => "/"
    end.

End vfspath.

(** ** Errors, outcomes and constants *)
Module golang.

(** The [syscall.Errno] values that occur. *)
Inductive Errno := ENOENT | EEXIST | EISDIR | ENOTDIR | EINVAL.

(** Go [error] values: errnos, the sentinel errors of package [os],
    [errors.New] strings, and [*os.PathError]. *)
Inductive error :=
| SyscallErrno (e : Errno)
| ErrInvalid
| ErrPermission
| ErrExist
| ErrNotExist
| ErrClosed
| ErrorString (msg : string)
| PathError (Op Path : string) (Err : error).

(** The error kinds of the spec (§7). *)
Inductive Kind :=
| NO_SUCH_ENTRY | EXISTS | NOT_A_DIRECTORY | IS_DIRECTORY | NOT_EMPTY
| PERMISSION | INVALID | LOOP | NOT_SYMLINK | CORRUPTED_PAYLOAD | INTERNAL.

(** How an error value is recognized, the way the predicates of
    package [os] ([os.IsNotExist] and the like, which [utils.go]
    re-exports) do it: a [PathError] is unwrapped, then the sentinel or
    the errno decides. [os.ErrClosed] ("file already closed") and
    [errors.New] strings belong to no kind. *)
Fixpoint kind_of (e : error) : option Kind :=
  match e with
  | SyscallErrno ENOENT | ErrNotExist => Some NO_SUCH_ENTRY
  | SyscallErrno EEXIST | ErrExist => Some EXISTS
  | SyscallErrno EISDIR => Some IS_DIRECTORY
  | SyscallErrno ENOTDIR => Some NOT_A_DIRECTORY
  | SyscallErrno EINVAL | ErrInvalid => Some INVALID
  | ErrPermission => Some PERMISSION
  | ErrClosed => None
  | ErrorString _ => None
  | PathError _ _ err => kind_of err
  end.

(** What running a piece of the program gives.
    - [Ret a]: it returns [a].
    - [Panic msg]: a run-time panic or fatal error of the Go runtime
      (index out of range, nil dereference, misuse of a mutex); nothing
      is returned.
    - [Blocked]: a lock that is never released is waited for.
    - [NoFuel]: the bound given to the model of a recursion or loop
      was reached before it ended; this says nothing about the
      program, and a computation that is [NoFuel] for every bound does
      not return. *)
Inductive outcome (A : Type) :=
| Ret (a : A)
| Panic (msg : string)
| Blocked
| NoFuel.
Arguments Ret {A} a.
Arguments Panic {A} msg.
Arguments Blocked {A}.
Arguments NoFuel {A}.

Definition obind {A B} (f : A → outcome B) (m : outcome A) : outcome B :=
  match m with
  | Ret a => f a
  | Panic msg => Panic msg
  | Blocked => Blocked
  | NoFuel => NoFuel
  end.

#[global] Instance outcome_bind : MBind outcome := @obind.
#[global] Instance outcome_ret : MRet outcome := @Ret.

Definition nil_dereference : string :=
  "invalid memory address or nil pointer dereference".
Definition index_out_of_range : string := "index out of range".

(** [os.FileMode] bits. *)
Definition ModeDir : Z := 2147483648.      (* 1 << 31 *)
Definition ModeSymlink : Z := 134217728.   (* 1 << 27 *)
Definition ModePerm : Z := 511.            (* 0777 *)

(** Open flags: [os.O_*] with their Linux values, and the masks of
    package [absfs]; both are declared outside the sources. *)
Definition O_RDONLY : Z := 0.
Definition O_WRONLY : Z := 1.
Definition O_RDWR : Z := 2.
Definition O_ACCESS : Z := 3.
Definition O_CREATE : Z := 64.
Definition O_EXCL : Z := 128.
Definition O_TRUNC : Z := 512.
Definition O_APPEND : Z := 1024.
Definition OS_ALL_R : Z := 292.            (* 0444 *)
Definition OS_ALL_W : Z := 146.            (* 0222 *)

(** [int(x)] for a [uint64] [x]. *)
Definition int_of_uint64 (x : Z) : Z :=
  if x <? 2 ^ 63 then x else x - 2 ^ 64.

(** [sync.RWMutex] as one goroutine sees it. *)
Record RWMutex := mkRWMutex { writer : bool; readers : nat }.

Definition RLock (m : RWMutex) : outcome RWMutex :=
  if writer m then Blocked
  else Ret (mkRWMutex false (S (readers m))).

Definition RUnlock (m : RWMutex) : outcome RWMutex :=
  match readers m with
  | O => Panic "sync: RUnlock of unlocked RWMutex"
  | S n => Ret (mkRWMutex (writer m) n)
  end.

Definition Lock (m : RWMutex) : outcome RWMutex :=
  if writer m then Blocked
  else match readers m with
       | O => Ret (mkRWMutex true O)
       | S _ => Blocked
       end.

Definition Unlock (m : RWMutex) : outcome RWMutex :=
  if writer m then Ret (mkRWMutex false (readers m))
  else Panic "sync: Unlock of unlocked RWMutex".

End golang.

(** ** Package [inode]

    Modelled from the spec: the package ([Inode], the allocator [Ino],
    [Resolve], [Link], [Unlink], [UnlinkAll], [IsDir], [Abs]) is imported
    by [src/vfs/vfs.go] and is not part of the sources at hand. The
    definitions follow §3 (data model), §4.1 (resolution, linking) and
    §4.2 (allocator) of the spec. Timestamps are left out. *)
Module inode.
Import golang GoStrings vfspath.

(** A [*Inode] is a location in the store of inode objects. *)
Abbreviation loc := nat (only parsing).

(** Modelled from the spec: [Inode], not under [src/]; the attributes
    of §3, the times apart. [Dir] is the ordered mapping from entry name
    to child; it is empty for an inode that is no directory. *)
Record Inode := mkInode {
  Ino : Z;                       (* uint64 *)
  Mode : Z;                      (* os.FileMode *)
  Nlink : Z;                     (* uint64 *)
  Size : Z;                      (* int64 *)
  Uid : Z;
  Gid : Z;
  Dir : list (string * loc)      (* ordered by entry name *)
}.

Definition with_Mode (n : Inode) (m : Z) : Inode :=
  mkInode (Ino n) m (Nlink n) (Size n) (Uid n) (Gid n) (Dir n).
Definition with_Nlink (n : Inode) (k : Z) : Inode :=
  mkInode (Ino n) (Mode n) k (Size n) (Uid n) (Gid n) (Dir n).
Definition with_Size (n : Inode) (s : Z) : Inode :=
  mkInode (Ino n) (Mode n) (Nlink n) s (Uid n) (Gid n) (Dir n).
Definition with_Dir (n : Inode) (d : list (string * loc)) : Inode :=
  mkInode (Ino n) (Mode n) (Nlink n) (Size n) (Uid n) (Gid n) d.

(** [*p] for a pointer to an inode: a location without an object is a
    nil pointer. *)
Definition deref (h : list Inode) (p : loc) : outcome Inode :=
  match h !! p with
  | Some n => Ret n
  | None => Panic nil_dereference
  end.

(** Modelled from the spec: [Inode.IsDir], not under [src/]; the
    directory type flag of the mode (§3). *)
Definition IsDir (n : Inode) : bool := negb (Z.land (Mode n) ModeDir =? 0).

(** The structural entries [.] and [..] (spec, glossary). *)
Definition structural (name : string) : bool :=
  String.eqb name "." || String.eqb name "..".

(** Modelled from the spec: the mapping from entry name to child of a
    directory (§3), kept in the order of the names: lookup, insertion,
    removal. *)
Fixpoint find (name : string) (d : list (string * loc)) : option loc :=
  match d with
  | [] => None
  | (k, c) :: rest => if String.eqb k name then Some c else find name rest
  end.

Fixpoint dir_insert (name : string) (c : loc) (d : list (string * loc))
  : list (string * loc) :=
  match d with
  | [] => [(name, c)]
  | (k, c') :: rest =>
      if String.ltb name k then (name, c) :: d
      else (k, c') :: dir_insert name c rest
  end.

Fixpoint dir_remove (name : string) (d : list (string * loc))
  : list (string * loc) :=
  match d with
  | [] => []
  | (k, c) :: rest =>
      if String.eqb k name then rest else (k, c) :: dir_remove name rest
  end.

(** Modelled from the spec: [Ino.New], not under [src/]. §4.2: the next
    inode number, the mode initialized; the object is new. *)
Definition New (h : list Inode) (ino : Z) (mode : Z)
  : list Inode * Z * loc :=
  let ino' := (ino + 1) mod 2 ^ 64 in
  ((h ++ [mkInode ino' mode 0 0 0 0 []])%list, ino', length h).

(** Modelled from the spec: [Ino.NewDir], not under [src/]. §4.2: as
    [New], with the directory type flag and the [.] and [..]
    bindings, both to the new directory itself. *)
Definition NewDir (h : list Inode) (ino : Z) (mode : Z)
  : list Inode * Z * loc :=
  let ino' := (ino + 1) mod 2 ^ 64 in
  let l := length h in
  ((h ++ [mkInode ino' (Z.lor ModeDir mode) 0 0 0 0
                    [(".", l); ("..", l)]])%list,
   ino', l).

(** Modelled from the spec: [Ino.SubIno], not under [src/]. §4.2: the
    counter is decremented. *)
Definition SubIno (ino : Z) : Z := (ino - 1) mod 2 ^ 64.

(** Modelled from the spec: the link count of [c] moves by [delta]
    when an entry [name] to it comes or goes; by I3 the structural
    entries do not count. *)
Definition count (delta : Z) (name : string) (h : list Inode) (c : loc)
  : list Inode :=
  if structural name then h
  else match h !! c with
       | Some n => <[c := with_Nlink n ((Nlink n + delta) mod 2 ^ 64)]> h
       | None => h
       end.

(** The entry [name] bound to [c] instead of its child. *)
Fixpoint dir_rebind (name : string) (c : loc) (d : list (string * loc))
  : list (string * loc) :=
  match d with
  | [] => []
  | (k, c') :: rest =>
      if String.eqb k name then (k, c) :: rest
      else (k, c') :: dir_rebind name c rest
  end.

(** Modelled from the spec: [Inode.Link], not under [src/]. §4.1:
    [link(name, child)] inserts an entry into a directory and fails
    [EXISTS] if [name] is already present. Two points the spec
    leaves to the reader are settled as follows. A receiver that is no
    directory fails, which keeps "non-directory inodes have an empty
    [dir]" (§3). The [..] binding that [NewDir] creates is rebound: by
    §4.2 the caller patches it when the directory is attached, and
    [Mkdir] does so with [child.Link("..", parent)]. *)
Definition Link (h : list Inode) (n : loc) (name : string) (child : loc)
  : outcome (list Inode * option error) :=
  dn ← deref h n;
  if negb (IsDir dn) then Ret (h, Some (SyscallErrno ENOTDIR))
  else match find name (Dir dn) with
       | Some _ =>
           if String.eqb name ".." then
             Ret (<[n := with_Dir dn (dir_rebind name child (Dir dn))]> h, None)
           else Ret (h, Some (SyscallErrno EEXIST))
       | None =>
           let h1 := <[n := with_Dir dn (dir_insert name child (Dir dn))]> h in
           Ret (count 1 name h1 child, None)
       end.

(** Modelled from the spec: [Inode.Unlink], not under [src/]. §4.1:
    [unlink(name)] removes the named entry and fails [NO_SUCH_ENTRY] if
    it is absent. *)
Definition Unlink (h : list Inode) (n : loc) (name : string)
  : outcome (list Inode * option error) :=
  dn ← deref h n;
  match find name (Dir dn) with
  | None => Ret (h, Some (SyscallErrno ENOENT))
  | Some c =>
      let h1 := <[n := with_Dir dn (dir_remove name (Dir dn))]> h in
      Ret (count (-1) name h1 c, None)
  end.

(** Modelled from the spec: the walk of [Inode.Resolve], not under
    [src/]. §4.1, resolution steps 2 to 4 from a chosen start: every
    segment is looked up in the current inode, which must be a
    directory; the last inode is returned, a trailing symlink is not
    followed. *)
Fixpoint descend (h : list Inode) (cur : loc) (segs : list string)
  : outcome (loc + error) :=
  match segs with
  | [] => Ret (inl cur)
  | s :: rest =>
      dn ← deref h cur;
      if negb (IsDir dn) then Ret (inr (SyscallErrno ENOTDIR))
      else match find s (Dir dn) with
           | None => Ret (inr (SyscallErrno ENOENT))
           | Some c => descend h c rest
           end
  end.

Definition segments (p : string) : list string :=
  filter (fun s => s ≠ "") (SplitSlash p).

(** Modelled from the spec: [Inode.Resolve], not under [src/]. §4.1,
    resolution: an absolute path starts at the root, any other at the
    receiver [W]. *)
Definition Resolve (h : list Inode) (root W : loc) (p : string)
  : outcome (loc + error) :=
  descend h (if IsAbs p then root else W) (segments p).

(** Modelled from the spec: [Inode.UnlinkAll], not under [src/]. §4.1:
    the subtree is unlinked in post-order: what is below an
    entry goes before the entry. The structural entries are not
    descended into. *)
Fixpoint unlink_entries (below : list Inode → loc → outcome (list Inode))
    (h : list Inode) (n : loc) (entries : list (string * loc))
  : outcome (list Inode) :=
  match entries with
  | [] => Ret h
  | (name, c) :: rest =>
      if structural name then unlink_entries below h n rest
      else
        h1 ← below h c;
        r ← Unlink h1 n name;
        unlink_entries below r.1 n rest
  end.

Fixpoint UnlinkAll (fuel : nat) (h : list Inode) (n : loc)
  : outcome (list Inode) :=
  match fuel with
  | O => NoFuel
  | S fuel' =>
      dn ← deref h n;
      unlink_entries (UnlinkAll fuel') h n (Dir dn)
  end.

(** Modelled from the spec: [inode.Abs], not under [src/]. The spec
    does not describe it; it is given what the façade's own [Abs] in
    [vfs.go] does: an absolute path is cleaned, any other is joined to
    [cwd]. *)
Definition Abs (cwd path : string) : string :=
  if IsAbs path then Clean path else Join cwd path.

End inode.

(** ** [src/vfs/vfs.go], package [vfs] *)
Module vfs.
Import golang GoStrings vfspath inode.

(** An open handle [*File]. The type is declared outside the sources;
    the fields are those [OpenFile] sets. [File_data] is the pointer
    to the sealed record: the index of the slot of [fs.data] that holds
    it, [None] for [nil]. *)
Record File := mkFile {
  File_name : string;
  File_flags : Z;
  File_node : loc;
  File_data : option nat;
  File_offset : Z
}.

Definition with_offset (f : File) (o : Z) : File :=
  mkFile (File_name f) (File_flags f) (File_node f) (File_data f) o.

(** [sealedFile], with the fields the sources use: the handle opened
    last, the ciphertext and the sealed key ([nil] is [None]). *)
Record sealedFile := mkSealed {
  f : option File;
  ciphertext : list Z;
  key : option (list Z)
}.

(** What [OpenFile] returns as [absfs.File]. *)
Inductive absfsFile :=
| NilFile
| InvalidFile (name : string)
| VFSFile (file : File).

(** [FileInfo{name, node}] *)
Record FileInfo := mkFileInfo { FileInfo_name : string; FileInfo_node : loc }.

Record FileSystem := mkFS {
  mtx : RWMutex;
  Umask : Z;
  Tempdir : string;
  root : loc;
  cwd : string;
  dir : loc;
  ino : Z;
  symlinks : gmap Z string;
  data : list (option sealedFile);
  inodes : list Inode            (* the inode objects the pointers name *)
}.

Definition set_mtx (fs : FileSystem) (m : RWMutex) : FileSystem :=
  mkFS m (Umask fs) (Tempdir fs) (root fs) (cwd fs) (dir fs) (ino fs)
       (symlinks fs) (data fs) (inodes fs).
Definition set_ino (fs : FileSystem) (i : Z) : FileSystem :=
  mkFS (mtx fs) (Umask fs) (Tempdir fs) (root fs) (cwd fs) (dir fs) i
       (symlinks fs) (data fs) (inodes fs).
Definition set_symlinks (fs : FileSystem) (s : gmap Z string) : FileSystem :=
  mkFS (mtx fs) (Umask fs) (Tempdir fs) (root fs) (cwd fs) (dir fs) (ino fs)
       s (data fs) (inodes fs).
Definition set_data (fs : FileSystem) (d : list (option sealedFile))
  : FileSystem :=
  mkFS (mtx fs) (Umask fs) (Tempdir fs) (root fs) (cwd fs) (dir fs) (ino fs)
       (symlinks fs) d (inodes fs).
Definition set_inodes (fs : FileSystem) (h : list Inode) : FileSystem :=
  mkFS (mtx fs) (Umask fs) (Tempdir fs) (root fs) (cwd fs) (dir fs) (ino fs)
       (symlinks fs) (data fs) h.

Definition NewFS : FileSystem :=
  let Umask := 493 (* 0755 *) in
  let '(h, ino, root) := NewDir [] 0 Umask in
  mkFS (mkRWMutex false O) Umask "/tmp" root "/" root ino ∅ [None; None] h.

(** [fs.data[i]] for an index of type [int]: the pointer in the slot. *)
Definition slot (fs : FileSystem) (i : Z) : outcome (option nat) :=
  if i <? 0 then Panic index_out_of_range
  else match data fs !! Z.to_nat i with
       | None => Panic index_out_of_range
       | Some None => Ret None
       | Some (Some _) => Ret (Some (Z.to_nat i))
       end.

(** The record a non-nil pointer names, and its update in place. *)
Definition sealed_at (fs : FileSystem) (p : nat) : outcome sealedFile :=
  match data fs !! p with
  | Some (Some s) => Ret s
  | _ => Panic nil_dereference
  end.

Definition update_sealed (fs : FileSystem) (p : nat)
    (g : sealedFile → sealedFile) : outcome FileSystem :=
  s ← sealed_at fs p;
  Ret (set_data fs (<[p := Some (g s)]> (data fs))).

(** [fs.symlinks[ino]]: a missing key reads as the empty string. *)
Definition symlink_target (fs : FileSystem) (ino : Z) : string :=
  default "" (symlinks fs !! ino).

(** Lines 232 to 253 of [OpenFile], where the branches for an existing
    and for a created node meet. *)
Definition OpenFile_finish (fs : FileSystem) (name : string) (flag : Z)
    (node : loc) : outcome (FileSystem * (absfsFile * option error)) :=
  let appendFile := negb (Z.land flag O_APPEND =? 0) in
  let access := Z.land flag O_ACCESS in
  let create := negb (Z.land flag O_CREATE =? 0) in
  let truncate := negb (Z.land flag O_TRUNC =? 0) in
  n ← deref (inodes fs) node;
  data ← slot fs (int_of_uint64 (Ino n));
  if negb create &&
     ((access =? O_RDONLY) && (Z.land (Mode n) OS_ALL_R =? 0)
      || (access =? O_WRONLY) && (Z.land (Mode n) OS_ALL_W =? 0)
      || (access =? O_RDWR) && (Z.land (Mode n) (Z.lor OS_ALL_W OS_ALL_R) =? 0))
  then Ret (fs, (InvalidFile name, Some (PathError "open" name ErrPermission)))
  else
    let file := mkFile name flag node data 0 in
    match data with
    | Some p =>
        let n1 := if truncate then with_Size n 0 else n in
        let fs1 := if truncate then set_inodes fs (<[node := n1]> (inodes fs))
                   else fs in
        let file := if appendFile then with_offset file (Size n1) else file in
        fs2 ← update_sealed fs1 p (λ s, mkSealed (Some file) (ciphertext s) (key s));
        Ret (fs2, (VFSFile file, None))
    | None => Ret (fs, (VFSFile file, None))
    end.

Definition OpenFile (fs : FileSystem) (name : string) (flag perm : Z)
  : outcome (FileSystem * (absfsFile * option error)) :=
  if String.eqb name "/" then
    r ← deref (inodes fs) (root fs);
    data ← slot fs (int_of_uint64 (Ino r));
    Ret (fs, (VFSFile (mkFile name flag (root fs) data 0), None))
  else
  let appendFile := negb (Z.land flag O_APPEND =? 0) in
  if String.eqb name "." then
    d ← deref (inodes fs) (dir fs);
    data ← slot fs (int_of_uint64 (Ino d));
    let file := mkFile name flag (dir fs) data 0 in
    match data with
    | Some p =>
        let file := if appendFile then with_offset file (Size d) else file in
        fs1 ← update_sealed fs p (λ s, mkSealed (Some file) (ciphertext s) (key s));
        Ret (fs1, (VFSFile file, None))
    | None => Ret (fs, (VFSFile file, None))
    end
  else
  let wd := if IsAbs name then root fs else dir fs in
  r ← Resolve (inodes fs) (root fs) wd name;
  let exists_ := match r with inl _ => true | inr _ => false end in
  let '(dir, filename) := Split name in
  let dir := Clean dir in
  rp ← Resolve (inodes fs) (root fs) wd dir;
  match rp with
  | inr err => Ret (fs, (NilFile, Some err))
  | inl parent =>
      let create := negb (Z.land flag O_CREATE =? 0) in
      let access := Z.land flag O_ACCESS in
      let truncate := negb (Z.land flag O_TRUNC =? 0) in
      if negb exists_ && negb create then
        Ret (fs, (InvalidFile name,
                  Some (PathError "open" name (SyscallErrno ENOENT))))
      else
        match r with
        | inl node =>
            if create && negb (Z.land flag O_EXCL =? 0) then
              Ret (fs, (InvalidFile name,
                        Some (PathError "open" name (SyscallErrno EEXIST))))
            else
              n ← deref (inodes fs) node;
              if IsDir n && (negb (access =? O_RDONLY) || truncate) then
                Ret (fs, (InvalidFile name,
                          Some (PathError "open" name (SyscallErrno EISDIR))))
              else
                fs1 ← (if truncate then
                         sfile ← slot fs (int_of_uint64 (Ino n));
                         match sfile with
                         | None => Panic nil_dereference
                         | Some p =>
                             update_sealed fs p (λ s, mkSealed (f s) [] None)
                         end
                       else Ret fs);
                OpenFile_finish fs1 name flag node
        | inr _ =>
            if negb create then
              Ret (fs, (InvalidFile name,
                        Some (PathError "open" name (SyscallErrno ENOENT))))
            else
              let '(h1, ino1, node) :=
                New (inodes fs) (ino fs) (Z.land (Umask fs) perm) in
              lr ← Link h1 parent filename node;
              match lr.2 with
              | Some err =>
                  Ret (set_ino (set_inodes fs lr.1) (SubIno ino1),
                       (InvalidFile name, Some (PathError "open" name err)))
              | None =>
                  let fs1 := set_ino (set_inodes fs lr.1) ino1 in
                  let fs2 :=
                    set_data fs1 (data fs1 ++ [Some (mkSealed None [] None)])%list in
                  OpenFile_finish fs2 name flag node
              end
        end
  end.

Definition Open (fs : FileSystem) (name : string)
  : outcome (FileSystem * (absfsFile * option error)) :=
  OpenFile fs name O_RDONLY 0.

Definition Create (fs : FileSystem) (name : string)
  : outcome (FileSystem * (absfsFile * option error)) :=
  OpenFile fs name (Z.lor (Z.lor O_CREATE O_RDWR) O_TRUNC) 420 (* 0644 *).

(** [fs.mtx.Lock(); defer fs.mtx.Unlock()] around a function body. *)
Definition Lock_defer_Unlock {A} (fs : FileSystem)
    (body : FileSystem → outcome (FileSystem * A))
  : outcome (FileSystem * A) :=
  m ← Lock (mtx fs);
  r ← body (set_mtx fs m);
  m' ← Unlock (mtx r.1);
  Ret (set_mtx r.1 m', r.2).

(** *** Truncate

    [core.Encrypt], [core.Decrypt] and the sealing of keys belong to
    the memguard library and are taken as they come. The fresh key that
    [fastrand.Bytes(keySize)] draws is an argument. The handle's own
    mutex ([file.f.mtx]) lives in the [File] type, which the sources do
    not declare, and is left out. *)
Section Crypto.
Variable Encrypt : list Z → list Z → list Z * option error.
Variable Decrypt : list Z → list Z → nat → list Z * option error.
Variable Seal : list Z → list Z.
Variable EnclaveOpen : list Z → list Z * option error.

(** Modelled from the spec: [File.updateSize] is declared outside the
    sources; by I6 the size of the node is the length of the
    plaintext just encrypted. *)
Definition updateSize (fs : FileSystem) (file : File) (plaintext : list Z)
  : FileSystem :=
  match inodes fs !! File_node file with
  | Some n =>
      set_inodes fs (<[File_node file :=
                         with_Size n (Z.of_nat (length plaintext))]> (inodes fs))
  | None => fs
  end.

(** Lines 291 to 303 and 309 to 322: encrypt under the new key, seal
    it, update the size. *)
Definition reseal (fs : FileSystem) (p : nat) (file : File)
    (plaintext newKey : list Z) : outcome (FileSystem * option error) :=
  let '(ct, err) := Encrypt plaintext newKey in
  fs1 ← update_sealed fs p (λ s, mkSealed (f s) ct (Some (Seal newKey)));
  Ret (updateSize fs1 file plaintext, err).

Definition Truncate (fs : FileSystem) (name : string) (size : Z)
    (newKey : list Z) : outcome (FileSystem * option error) :=
  if size <? 0 then Ret (fs, Some (PathError "truncate" name ErrClosed))
  else
    let path := Abs (cwd fs) name in
    r ← Resolve (inodes fs) (root fs) (root fs) path;
    match r with
    | inr err => Ret (fs, Some err)
    | inl child =>
        c ← deref (inodes fs) child;
        m1 ← RLock (mtx fs);
        file ← slot fs (Ino c);
        m2 ← RUnlock m1;
        let fs := set_mtx fs m2 in
        match file with
        | None => Panic nil_dereference
        | Some p =>
            s ← sealed_at fs p;
            match f s with
            | None => Panic nil_dereference
            | Some fh =>
                n ← deref (inodes fs) (File_node fh);
                let continue (plaintext : list Z) :=
                  if size <=? Size n then
                    reseal fs p fh (take (Z.to_nat size) plaintext) newKey
                  else
                    reseal fs p fh
                      (plaintext ++ replicate (Z.to_nat size - length plaintext)%nat 0)%list
                      newKey in
                if negb (Size n =? 0) then
                  match key s with
                  | None => Panic nil_dereference
                  | Some k =>
                      let '(kb, err) := EnclaveOpen k in
                      match err with
                      | Some e => Ret (fs, Some e)
                      | None =>
                          let '(plaintext, err) :=
                            Decrypt (ciphertext s) kb (Z.to_nat (Size n)) in
                          match err with
                          | Some e => Ret (fs, Some e)
                          | None => continue plaintext
                          end
                      end
                  end
                else if size =? 0 then Ret (fs, None)
                else continue []
            end
        end
    end.
End Crypto.

(** *** Mkdir, MkdirAll, RemoveAll *)

Definition Mkdir (fs : FileSystem) (name : string) (perm : Z)
  : outcome (FileSystem * option error) :=
  Lock_defer_Unlock fs (λ fs,
    let abs := if IsAbs name then name else Join (cwd fs) name in
    let wd := if IsAbs name then root fs else dir fs in
    r ← Resolve (inodes fs) (root fs) wd name;
    match r with
    | inl _ => Ret (fs, Some (PathError "mkdir" name ErrExist))
    | inr _ =>
        let '(dir, filename) := Split abs in
        let dir := Clean dir in
        rp ← (if String.eqb dir "/" then Ret (inl (root fs))
              else Resolve (inodes fs) (root fs) (root fs) (TrimLeftSlash dir));
        match rp with
        | inr err => Ret (fs, Some (PathError "mkdir" dir err))
        | inl parent =>
            let '(h1, ino1, child) :=
              NewDir (inodes fs) (ino fs) (Z.land (Umask fs) perm) in
            l1 ← Link h1 parent filename child;
            l2 ← Link l1.1 child ".." parent;
            let fs1 := set_ino (set_inodes fs l2.1) ino1 in
            Ret (set_data fs1 (data fs1 ++ [Some (mkSealed None [] None)])%list,
                 None)
        end
    end).

(** The loop of [MkdirAll] over the elements [ps] still to come, with
    the path built so far; what [Mkdir] returns is dropped. *)
Fixpoint MkdirAll_loop (fs : FileSystem) (perm : Z) (path : string)
    (ps : list string) : outcome FileSystem :=
  match ps with
  | [] => Ret fs
  | p :: rest =>
      let p := if String.eqb p "" then "/" else p in
      let path := Join path p in
      r ← Mkdir fs path perm;
      MkdirAll_loop r.1 perm path rest
  end.

Definition MkdirAll (fs : FileSystem) (name : string) (perm : Z)
  : outcome (FileSystem * option error) :=
  m1 ← RLock (mtx fs);
  let name := Abs (cwd fs) name in
  m2 ← RUnlock m1;
  fs1 ← MkdirAll_loop (set_mtx fs m2) perm "" (SplitSlash name);
  Ret (fs1, None).

Definition RemoveAll (fuel : nat) (fs : FileSystem) (name : string)
  : outcome (FileSystem * option error) :=
  let abs := if IsAbs name then name else Join (cwd fs) name in
  let wd := if IsAbs name then root fs else dir fs in
  r ← Resolve (inodes fs) (root fs) wd name;
  match r with
  | inr err => Ret (fs, Some (PathError "remove" name err))
  | inl child =>
      let '(dir, filename) := Split abs in
      let dir := Clean dir in
      rp ← (if String.eqb dir "/" then Ret (inl (root fs))
            else Resolve (inodes fs) (root fs) (root fs) (TrimLeftSlash dir));
      match rp with
      | inr err => Ret (fs, Some (PathError "remove" dir err))
      | inl parent =>
          h1 ← UnlinkAll fuel (inodes fs) child;
          u ← Unlink h1 parent filename;
          Ret (set_inodes fs u.1, u.2)
      end
  end.

(** *** Stat, Readlink, Symlink *)

(** [fileStat] calls itself once per symlink followed; [fuel] bounds
    the number of calls. *)
Fixpoint fileStat (fuel : nat) (fs : FileSystem) (cwd name : string)
  : outcome (loc + error) :=
  match fuel with
  | O => NoFuel
  | S fuel' =>
      let name := Abs cwd name in
      let name := if String.eqb name "/" then name else TrimLeftSlash name in
      r ← Resolve (inodes fs) (root fs) (root fs) name;
      match r with
      | inr err => Ret (inr (PathError "stat" name err))
      | inl node =>
          n ← deref (inodes fs) node;
          if Z.land (Mode n) ModeSymlink =? 0 then Ret (inl node)
          else fileStat fuel' fs (vfspath.Dir name) (symlink_target fs (Ino n))
      end
  end.

Definition Stat (fuel : nat) (fs : FileSystem) (name : string)
  : outcome (FileInfo + error) :=
  if String.eqb name "/" then Ret (inl (mkFileInfo "/" (root fs)))
  else
    r ← fileStat fuel fs (cwd fs) name;
    match r with
    | inr err => Ret (inr err)
    | inl node => Ret (inl (mkFileInfo (Base name) node))
    end.


Definition Symlink (fs : FileSystem) (oldname newname : string)
  : outcome (FileSystem * option error) :=
  let wd := if IsAbs newname then root fs else dir fs in
  rn ← Resolve (inodes fs) (root fs) wd newname;
  reject ← match rn with
           | inl newNode =>
               nn ← deref (inodes fs) newNode;
               Ret (Z.land (Mode nn) ModeSymlink =? 0)
           | inr _ => Ret false
           end;
  if reject : bool then
    Ret (fs, Some (PathError "symlink" newname (SyscallErrno EEXIST)))
  else
    ro ← Resolve (inodes fs) (root fs) wd oldname;
    match ro with
    | inr _ =>
        Ret (fs, Some (PathError "symlink" oldname (SyscallErrno ENOENT)))
    | inl oldNode =>
        Lock_defer_Unlock fs (λ fs,
          on ← deref (inodes fs) oldNode;
          match rn with
          | inl newNode =>
              nn ← deref (inodes fs) newNode;
              let h := <[newNode := with_Mode nn (Z.lor (Mode on) ModeSymlink)]>
                         (inodes fs) in
              Ret (set_symlinks (set_inodes fs h)
                     (<[Ino nn := oldname]> (symlinks fs)), None)
          | inr _ =>
              let '(dir, filename) := Split newname in
              let dir := Clean dir in
              rp ← Resolve (inodes fs) (root fs) wd dir;
              match rp with
              | inr err => Ret (fs, Some err)
              | inl parent =>
                  let '(h1, ino1, newNode) :=
                    New (inodes fs) (ino fs) (Z.lor (Mode on) ModeSymlink) in
                  lr ← Link h1 parent filename newNode;
                  let fs1 := set_ino (set_inodes fs lr.1) ino1 in
                  match lr.2 with
                  | Some err =>
                      Ret (fs1, Some (PathError "symlink" newname err))
                  | None =>
                      Ret (set_symlinks fs1 (<[ino1 := oldname]> (symlinks fs1)),
                           None)
                  end
              end
          end)
    end.

(** *** Walk *)

(** Modelled from the spec: [FileInfo.IsDir], not under [src/]; the
    directory flag of the inode the [FileInfo] holds. *)
Definition FileInfo_IsDir (fs : FileSystem) (info : FileInfo) : outcome bool :=
  n ← deref (inodes fs) (FileInfo_node info);
  Ret (IsDir n).

(** Modelled from the spec: [File.Readdirnames(-1)] and [File.Close],
    not under [src/]. By §6, [readdirnames(-1)] returns all names of the
    directory except [.] and [..], and closing a handle changes nothing
    in the filesystem, so [Close] has no counterpart here. A handle that
    is not a [*File] has no directory to read. *)
Definition Readdirnames (fs : FileSystem) (file : absfsFile)
  : outcome (list string * option error) :=
  match file with
  | VFSFile fh =>
      n ← deref (inodes fs) (File_node fh);
      Ret (filter (λ s, structural s = false) (inode.Dir n).*1, None)
  | InvalidFile _ => Ret ([], Some ErrInvalid)
  | NilFile => Panic nil_dereference
  end.

(** [sort.Sort(sort.Reverse(sort.StringSlice(names)))]: the names in
    descending order of Go's string comparison, which is byte-wise.
    Equal strings cannot be told apart, so the result does not depend on
    the sorting algorithm. *)
Fixpoint insert_desc (x : string) (l : list string) : list string :=
  match l with
  | [] => [x]
  | y :: l' => if String.leb y x then x :: l else y :: insert_desc x l'
  end.

Definition sort_Reverse (names : list string) : list string :=
  foldr insert_desc [] names.

(** The stack of [Walk]: the head of the list is the top, that is the
    last element of the Go slice. *)
Definition push (stack : list string) (path : string) : list string :=
  path :: stack.

(** Lines 640 to 645: the loop that pushes the children. *)
Definition Walk_push (stack : list string) (path : string)
    (names : list string) : list string :=
  fold_left
    (λ stack p,
       if String.eqb p ".." || String.eqb p "." then stack
       else push stack (Join path p))
    names stack.

(** Lines 627 to 646: the block under [if info.IsDir()]. *)
Definition Walk_dir (fs : FileSystem) (path : string) (stack : list string)
  : outcome (FileSystem * (list string + error)) :=
  o ← Open fs path;
  match o.2.2 with
  | Some err => Ret (o.1, inr err)
  | None =>
      names ← Readdirnames o.1 o.2.1;
      match names.2 with
      | Some err => Ret (o.1, inr err)
      | None => Ret (o.1, inl (Walk_push stack path (sort_Reverse names.1)))
      end
  end.

Section Visitor.
(** The visitor [fn], with the state [V] it keeps between calls. It
    is given the path and the [FileInfo]; its third argument is
    always [nil]. *)
Variable V : Type.
Variable fn : V → string → FileInfo → V * option error.

(** The loop of [Walk]. [hops] bounds the symlinks each [Stat]
    follows, [fuel] the number of iterations. *)
Fixpoint Walk_loop (hops fuel : nat) (fs : FileSystem) (v : V)
    (stack : list string) : outcome (FileSystem * V * option error) :=
  match stack with
  | [] => Ret (fs, v, None)
  | path :: stack =>                                   (* pop *)
      match fuel with
      | O => NoFuel
      | S fuel' =>
          st ← Stat hops fs path;
          match st with
          | inr err => Ret (fs, v, Some err)
          | inl info =>
              isdir ← FileInfo_IsDir fs info;
              d ← (if isdir : bool then Walk_dir fs path stack
                   else Ret (fs, inl stack));
              match d.2 with
              | inr err => Ret (d.1, v, Some err)
              | inl stack' =>
                  let '(v', err) := fn v path info in
                  match err with
                  | Some e => Ret (d.1, v', Some e)
                  | None => Walk_loop hops fuel' d.1 v' stack'
                  end
              end
          end
      end
  end.

Definition Walk (hops fuel : nat) (fs : FileSystem) (name : string) (v : V)
  : outcome (FileSystem * V * option error) :=
  Walk_loop hops fuel fs v (push [] name).

End Visitor.

(** *** The walk as the spec words it

    "Depth-first pre-order traversal rooted at a given path": a path
    is visited, then its children one after the other, each with all
    that is below it; the children in ascending lexicographic order,
    [.] and [..] skipped; the first error ends the walk and is what it
    returns. This second definition follows those words; [Walk] above
    follows the code. [depth] bounds the depth of the recursion. *)

Fixpoint insert_asc (x : string) (l : list string) : list string :=
  match l with
  | [] => [x]
  | y :: l' => if String.leb x y then x :: l else y :: insert_asc x l'
  end.

Definition sort_asc (names : list string) : list string :=
  foldr insert_asc [] names.

Definition children_asc (path : string) (names : list string) : list string :=
  map (Join path) (sort_asc (filter (λ p, structural p = false) names)).

(** The names in a directory, read through a handle as [Walk] does. *)
Definition read_dir (fs : FileSystem) (path : string)
  : outcome (FileSystem * (list string + error)) :=
  o ← Open fs path;
  match o.2.2 with
  | Some err => Ret (o.1, inr err)
  | None =>
      names ← Readdirnames o.1 o.2.1;
      match names.2 with
      | Some err => Ret (o.1, inr err)
      | None => Ret (o.1, inl names.1)
      end
  end.

Section Preorder.
Variable V : Type.
Variable fn : V → string → FileInfo → V * option error.

(** The paths one after the other, until one gives an error. *)
Fixpoint visit_each
    (visit : FileSystem → V → string → outcome (FileSystem * V * option error))
    (fs : FileSystem) (v : V) (paths : list string)
  : outcome (FileSystem * V * option error) :=
  match paths with
  | [] => Ret (fs, v, None)
  | p :: rest =>
      r ← visit fs v p;
      match r.2 with
      | Some err => Ret r
      | None => visit_each visit r.1.1 r.1.2 rest
      end
  end.

Fixpoint preorder (hops depth : nat) (fs : FileSystem) (v : V)
    (path : string) : outcome (FileSystem * V * option error) :=
  match depth with
  | O => NoFuel
  | S depth' =>
      st ← Stat hops fs path;
      match st with
      | inr err => Ret (fs, v, Some err)
      | inl info =>
          isdir ← FileInfo_IsDir fs info;
          d ← (if isdir : bool then read_dir fs path else Ret (fs, inl []));
          match d.2 with
          | inr err => Ret (d.1, v, Some err)
          | inl names =>
              (* the path itself, before its children *)
              let '(v', err) := fn v path info in
              match err with
              | Some e => Ret (d.1, v', Some e)
              | None =>
                  visit_each (preorder hops depth') d.1 v'
                             (children_asc path names)
              end
          end
      end
  end.

End Preorder.

End vfs.

(** * Predicates and states of the statements *)

Import golang GoStrings vfspath inode vfs.

(** ** The store of inode objects *)

(** Every directory entry names an object of the store, and an entry
    other than [.] and [..] names an object allocated after the
    directory that holds it: the entries form a forest. *)
Definition closed (h : list Inode) : Prop :=
  ∀ l n k c, h !! l = Some n → (k, c) ∈ inode.Dir n →
    (c < length h)%nat ∧ (structural k = false → (l < c)%nat).

(** [h'] has the objects of [h], with their inode numbers, and maybe more. *)
Definition extends (h h' : list Inode) : Prop :=
  (length h ≤ length h')%nat
  ∧ ∀ l n, h !! l = Some n → ∃ n', h' !! l = Some n' ∧ Ino n' = Ino n.

(** What the operations on the store keep: its size, closedness, and
    the objects with their numbers. *)
Definition kept (h h' : list Inode) : Prop :=
  length h' = length h ∧ closed h' ∧ extends h h'.

(** Resolution in a closed store ends with an object of the store or
    with one of two errors. *)
Definition resolved (h : list Inode) (r : loc + error) : Prop :=
  match r with
  | inl l => (l < length h)%nat
  | inr e => e = SyscallErrno ENOENT ∨ e = SyscallErrno ENOTDIR
  end.

(** ** Well-formed and reachable states *)

Definition unlocked : RWMutex := mkRWMutex false O.
Definition write_locked : RWMutex := mkRWMutex true O.

(** What every state built from [NewFS] by the operations below keeps,
    at a given state [m] of the mutex: the root object exists and has
    inode number 1, the working directory names an object, the payload
    array has its two first slots, and the store is closed. *)
Record wf_at (m : RWMutex) (fs : FileSystem) : Prop := mk_wf {
  wf_mtx : mtx fs = m;
  wf_root : ∃ r, inodes fs !! root fs = Some r ∧ Ino r = 1;
  wf_dir : (dir fs < length (inodes fs))%nat;
  wf_data : (2 ≤ length (data fs))%nat;
  wf_closed : closed (inodes fs)
}.

(** Between two operations no lock is held. *)
Definition wf (fs : FileSystem) : Prop := wf_at unlocked fs.

(** The states that the modelled operations build from [NewFS]. *)
Inductive reachable : FileSystem → Prop :=
| reach_NewFS : reachable NewFS
| reach_OpenFile fs name flag perm fs' r :
    reachable fs → OpenFile fs name flag perm = Ret (fs', r) → reachable fs'
| reach_Truncate Encrypt Decrypt Seal EnclaveOpen fs name size newKey fs' e :
    reachable fs →
    Truncate Encrypt Decrypt Seal EnclaveOpen fs name size newKey = Ret (fs', e) →
    reachable fs'
| reach_Mkdir fs name perm fs' e :
    reachable fs → Mkdir fs name perm = Ret (fs', e) → reachable fs'
| reach_MkdirAll fs name perm fs' e :
    reachable fs → MkdirAll fs name perm = Ret (fs', e) → reachable fs'
| reach_RemoveAll fuel fs name fs' e :
    reachable fs → RemoveAll fuel fs name = Ret (fs', e) → reachable fs'
| reach_Symlink fs oldname newname fs' e :
    reachable fs → Symlink fs oldname newname = Ret (fs', e) → reachable fs'.

(** ** Concrete states *)

(** A state with one regular file, [/f]. *)
Definition fs_with_file : outcome FileSystem :=
  r ← OpenFile NewFS "/f" (Z.lor O_CREATE O_RDWR) 420;
  Ret r.1.

(** The state with one regular file [/f], as a value. *)
Definition file_fs : FileSystem :=
  match fs_with_file with Ret fs => fs | _ => NewFS end.

(** [/f] as above, [/a] a symlink to [/f], then [/a] made a symlink to
    itself: all three calls succeed. *)
Definition cyclic_fs : outcome FileSystem :=
  fs ← fs_with_file;
  r1 ← Symlink fs "/f" "/a";
  r2 ← Symlink r1.1 "/a" "/a";
  Ret r2.1.

Definition link_fs : FileSystem :=
  match Symlink file_fs "/f" "/a" with Ret (fs, _) => fs | _ => NewFS end.

Definition cycle_fs : FileSystem :=
  match cyclic_fs with Ret fs => fs | _ => NewFS end.

(** The directories [/a] and [/a/b]. *)
Definition dirs_fs : FileSystem :=
  match MkdirAll NewFS "/a/b" 511 with Ret (fs, _) => fs | _ => NewFS end.

(** A tree: [/a] with [/a/b] and the file [/a/x] in it, and [/c]. *)
Definition tree_fs : FileSystem :=
  match
    r1 ← MkdirAll NewFS "/a/b" 511;
    r2 ← OpenFile r1.1 "/a/x" (Z.lor O_CREATE O_RDWR) 420;
    r3 ← Mkdir r2.1 "/c" 511;
    Ret r3.1
  with
  | Ret fs => fs
  | _ => NewFS
  end.

(** The visitor that records the paths it is given. *)
Definition record_path (v : list string) (path : string) (_ : FileInfo)
  : list string * option error :=
  ((v ++ [path])%list, None).

(** The visitor that fails at [/a/b]. *)
Definition fail_at_b (v : list string) (path : string) (_ : FileInfo)
  : list string * option error :=
  ((v ++ [path])%list,
   if String.eqb path "/a/b" then Some (ErrorString "stop") else None).

(** The state after the walk that [fail_at_b] ends: the handles opened
    on the directories have left their mark in the payload records. *)
Definition walked_fs : FileSystem :=
  match Walk _ fail_at_b 1 8 tree_fs "/" [] with
  | Ret (fs, _, _) => fs
  | _ => NewFS
  end.

(** ** The walk *)

Definition name_le (x y : string) : Prop := String.leb x y = true.

(** What one iteration of the loop of [Walk], and one call of
    [preorder], do with the path [p]; [next] is what follows the visit of
    [p], given the children of [p]. *)
Definition visit_then {V : Type} (fn : V → string → FileInfo → V * option error)
    (hops : nat) (fs : FileSystem) (v : V) (p : string)
    (next : FileSystem → V → list string → outcome (FileSystem * V * option error))
  : outcome (FileSystem * V * option error) :=
  st ← Stat hops fs p;
  match st with
  | inr err => Ret (fs, v, Some err)
  | inl info =>
      isdir ← FileInfo_IsDir fs info;
      d ← (if isdir : bool then read_dir fs p else Ret (fs, inl []));
      match d.2 with
      | inr err => Ret (d.1, v, Some err)
      | inl names =>
          let '(v', err) := fn v p info in
          match err with
          | Some e => Ret (d.1, v', Some e)
          | None => next d.1 v' (children_asc p names)
          end
      end
  end.

(** A result that ends the walk: anything but a return without error. *)
Definition stops {V : Type} (o : outcome (FileSystem * V * option error)) : Prop :=
  match o with
  | Ret (_, _, None) => False
  | _ => True
  end.

(** [o], and if it is a return without error, [k] from its state. *)
Definition and_then {V : Type} (o : outcome (FileSystem * V * option error))
    (k : FileSystem → V → outcome (FileSystem * V * option error))
  : outcome (FileSystem * V * option error) :=
  match o with
  | Ret (fs', v', None) => k fs' v'
  | _ => o
  end.

(** * Properties *)

(** ** The path-prefix conversion of [utils.go] *)
Section PrefixConversion.
Import pandorasbox.

Lemma HasPrefix_split (p s : string) :
  HasPrefix s p = true → s = p ++ drop (String.length p) s.
Proof.
  revert s. induction p as [|a p IH]; intros s H; [done|].
  destruct s as [|b s]; [done|]. simpl in *.
  apply andb_prop in H as [Hab Hp].
  apply Ascii.eqb_eq in Hab. subst b.
  change (String a s = String a (p ++ drop (String.length p) s)).
  f_equal. by apply IH.
Qed.

Lemma HasPrefix_app (p s : string) : HasPrefix (p ++ s) p = true.
Proof.
  induction p as [|a p IH]; [reflexivity|].
  change (Ascii.eqb a a && HasPrefix (p ++ s) p = true).
  by rewrite Ascii.eqb_refl, IH.
Qed.

Lemma drop_app (p s : string) : drop (String.length p) (p ++ s) = s.
Proof. induction p as [|a p IH]; [by destruct s|]. simpl. apply IH. Qed.

Lemma Replace1_unfold (s old new : string) :
  Replace1 s old new =
    if HasPrefix s old then new ++ drop (String.length old) s
    else match s with
         | EmptyString => EmptyString
         | String c s' => String c (Replace1 s' old new)
         end.
Proof. by destruct s. Qed.

Lemma Replace1_prefix (p new s : string) :
  Replace1 (p ++ s) p new = new ++ s.
Proof. by rewrite Replace1_unfold, HasPrefix_app, drop_app. Qed.

Lemma MakeVFSPath_slash (t : string) :
  MakeVFSPath ("/" ++ t) = VFSPrefix ++ t.
Proof.
  unfold MakeVFSPath. rewrite Replace1_prefix.
  destruct (String.eqb (VFSPrefix ++ t) ("/" ++ t)) eqn:E; [|done].
  apply String.eqb_eq in E. discriminate E.
Qed.

(** C10. A string that begins with [vfs://] survives [convertVFSPath]
    followed by [MakeVFSPath], and a string that begins with [/]
    survives [MakeVFSPath] followed by [ConvertVFSPath], which reports
    [true]. The claim's further condition on [p] (no [vfs://] before its
    first [/]) is not needed: the first [/] of [p] is its first byte. *)
Theorem VFSPath_round_trip (q p : string) :
  HasPrefix q VFSPrefix = true →
  HasPrefix p "/" = true →
  MakeVFSPath (convertVFSPath q) = q
  ∧ ConvertVFSPath (MakeVFSPath p) = (p, true).
Proof.
  intros Hq Hp. split.
  - apply HasPrefix_split in Hq. rewrite Hq at 1 2.
    unfold convertVFSPath. rewrite Replace1_prefix.
    by rewrite MakeVFSPath_slash.
  - apply HasPrefix_split in Hp. rewrite Hp.
    rewrite MakeVFSPath_slash.
    unfold ConvertVFSPath, IsVFSPath, convertVFSPath.
    by rewrite HasPrefix_app, Replace1_prefix.
Qed.

Lemma VFSPath_round_trip_witness :
  MakeVFSPath (convertVFSPath "vfs://etc/passwd") = "vfs://etc/passwd"
  ∧ ConvertVFSPath (MakeVFSPath "/etc/passwd") = ("/etc/passwd", true).
Proof.
  apply (VFSPath_round_trip "vfs://etc/passwd" "/etc/passwd"); reflexivity.
Defined.

End PrefixConversion.

(** ** The outcome monad *)

Lemma bind_Ret {A B} (m : outcome A) (k : A → outcome B) (a : A) :
  m = Ret a → (m ≫= k) = k a.
Proof. by intros ->. Qed.

Lemma bind_Ret_inv {A B} (m : outcome A) (k : A → outcome B) (b : B) :
  (m ≫= k) = Ret b → ∃ a, m = Ret a ∧ k a = Ret b.
Proof. destruct m; try done. intros H. by eexists. Qed.

(** Splits the first bind of a hypothesis [_ ≫= _ = Ret _]. *)
Ltac bind_inv H a Ha :=
  apply bind_Ret_inv in H as (a & Ha & H).

(** ** The store of inode objects *)

Lemma extends_refl h : extends h h.
Proof. split; [done|]. intros l n Hl. by exists n. Qed.

Lemma extends_trans h1 h2 h3 : extends h1 h2 → extends h2 h3 → extends h1 h3.
Proof.
  intros [L1 E1] [L2 E2]. split; [lia|].
  intros l n Hl. destruct (E1 _ _ Hl) as (n' & Hl' & Hi).
  destruct (E2 _ _ Hl') as (n'' & Hl'' & Hi'). exists n''. split; congruence.
Qed.

Lemma extends_insert h l n n' :
  h !! l = Some n → Ino n' = Ino n → extends h (<[l := n']> h).
Proof.
  intros Hl Hi. split; [by rewrite length_insert|].
  intros j m Hj. destruct (decide (l = j)) as [->|Hne].
  - exists n'. rewrite list_lookup_insert_eq by eauto using lookup_lt_Some.
    split; congruence.
  - exists m. by rewrite list_lookup_insert_ne.
Qed.

Lemma extends_snoc h n : extends h (h ++ [n]).
Proof.
  split; [rewrite length_app; lia|].
  intros l m Hl. exists m. split; [|done]. by apply lookup_app_l_Some.
Qed.

Lemma closed_insert h l n' :
  closed h →
  (∀ k c, (k, c) ∈ inode.Dir n' →
     (c < length h)%nat ∧ (structural k = false → (l < c)%nat)) →
  closed (<[l := n']> h).
Proof.
  intros Hc Hn j m k c Hj Hin. rewrite length_insert.
  apply list_lookup_insert_Some in Hj as [(-> & -> & _)|[_ Hj]]; eauto.
Qed.

Lemma closed_snoc h n :
  closed h →
  (∀ k c, (k, c) ∈ inode.Dir n → (c ≤ length h)%nat ∧ structural k = true) →
  closed (h ++ [n]).
Proof.
  intros Hc Hn j m k c Hj Hin. rewrite length_app. simpl.
  apply lookup_snoc_Some in Hj as [[_ Hj]|[_ ->]].
  - destruct (Hc _ _ _ _ Hj Hin). split; [lia|done].
  - destruct (Hn _ _ Hin) as [? Hs]. split; [lia|]. by rewrite Hs.
Qed.

Lemma find_Some_elem k c d : find k d = Some c → (k, c) ∈ d.
Proof.
  induction d as [|[k' c'] d IH]; [done|]. simpl.
  destruct (String.eqb k' k) eqn:E.
  - apply String.eqb_eq in E as ->. intros [= ->]. left.
  - intros H. right. by apply IH.
Qed.

Lemma elem_dir_insert x k c d : x ∈ dir_insert k c d → x = (k, c) ∨ x ∈ d.
Proof.
  induction d as [|[k' c'] d IH]; simpl.
  - intros ->%list_elem_of_singleton. by left.
  - destruct (String.ltb k k').
    + intros [->|H]%elem_of_cons; [by left|by right].
    + intros [->|H]%elem_of_cons; [right; left|].
      destruct (IH H) as [->|H']; [by left|right; by right].
Qed.

Lemma elem_dir_rebind x k c d : x ∈ dir_rebind k c d → x = (k, c) ∨ x ∈ d.
Proof.
  induction d as [|[k' c'] d IH]; simpl; [by right|].
  destruct (String.eqb k' k) eqn:E.
  - apply String.eqb_eq in E as ->.
    intros [->|H]%elem_of_cons; [by left|right; by right].
  - intros [->|H]%elem_of_cons; [right; left|].
    destruct (IH H) as [->|H']; [by left|right; by right].
Qed.

Lemma elem_dir_remove x k d : x ∈ dir_remove k d → x ∈ d.
Proof.
  induction d as [|[k' c'] d IH]; simpl; [done|].
  destruct (String.eqb k' k).
  - intros H. by right.
  - intros [->|H]%elem_of_cons; [left|right; by apply IH].
Qed.

(** [count] touches the link count only. *)
Lemma count_lookup delta k h c l n' :
  count delta k h c !! l = Some n' →
  ∃ n, h !! l = Some n ∧ Ino n' = Ino n ∧ Mode n' = Mode n
       ∧ Size n' = Size n ∧ inode.Dir n' = inode.Dir n.
Proof.
  unfold count. destruct (structural k); [naive_solver|].
  destruct (h !! c) as [m|] eqn:Hc; [|naive_solver].
  intros [(-> & <- & _)|[_ H]]%list_lookup_insert_Some; [|naive_solver].
  by exists m.
Qed.

Lemma count_length delta k h c : length (count delta k h c) = length h.
Proof.
  unfold count. destruct (structural k); [done|].
  destruct (h !! c); [|done]. by rewrite length_insert.
Qed.

Lemma count_lookup_fwd delta k h c l n :
  h !! l = Some n →
  ∃ n', count delta k h c !! l = Some n' ∧ Ino n' = Ino n ∧ Mode n' = Mode n
        ∧ Size n' = Size n ∧ inode.Dir n' = inode.Dir n.
Proof.
  intros Hl. unfold count. destruct (structural k); [naive_solver|].
  destruct (h !! c) as [m|] eqn:Hc; [|naive_solver].
  destruct (decide (c = l)) as [->|Hne].
  - rewrite list_lookup_insert_eq by eauto using lookup_lt_Some.
    eexists. split; [done|]. by simplify_eq.
  - rewrite list_lookup_insert_ne by done. naive_solver.
Qed.

Lemma count_extends delta k h c : extends h (count delta k h c).
Proof.
  split; [by rewrite count_length|].
  intros l n Hl. destruct (count_lookup_fwd delta k h c l n Hl) as (n' & ? & ? & _).
  eauto.
Qed.

Lemma count_closed delta k h c : closed h → closed (count delta k h c).
Proof.
  intros Hc l n' k' c' Hl Hin. rewrite count_length.
  apply count_lookup in Hl as (n & Hl & _ & _ & _ & Hd).
  rewrite Hd in Hin. eauto.
Qed.

Lemma closed_lt h l n k c :
  closed h → h !! l = Some n → (k, c) ∈ inode.Dir n → (c < length h)%nat.
Proof. intros Hc Hl Hin. by destruct (Hc _ _ _ _ Hl Hin). Qed.

Lemma deref_Some h l n : h !! l = Some n → deref h l = Ret n.
Proof. unfold deref. by intros ->. Qed.

Lemma deref_Ret_inv h l n : deref h l = Ret n → h !! l = Some n.
Proof. unfold deref. destruct (h !! l); [|done]. by intros [= ->]. Qed.

Lemma deref_lt h l : (l < length h)%nat → ∃ n, h !! l = Some n ∧ deref h l = Ret n.
Proof.
  intros [n Hn]%lookup_lt_is_Some_2. exists n. split; [done|by apply deref_Some].
Qed.

Lemma kept_refl h : closed h → kept h h.
Proof. intros Hc. split; [done|]. split; [done|apply extends_refl]. Qed.

Lemma kept_trans h1 h2 h3 : kept h1 h2 → kept h2 h3 → kept h1 h3.
Proof.
  intros (L1 & C1 & E1) (L2 & C2 & E2).
  split; [congruence|]. split; [done|by eapply extends_trans].
Qed.

Lemma kept_set_Dir h l n d :
  closed h → h !! l = Some n →
  (∀ k c, (k, c) ∈ d →
     (c < length h)%nat ∧ (structural k = false → (l < c)%nat)) →
  kept h (<[l := with_Dir n d]> h).
Proof.
  intros Hc Hl Hd. split; [by rewrite length_insert|]. split.
  - by apply closed_insert.
  - by apply (extends_insert h l n).
Qed.

Lemma kept_count delta k h c : closed h → kept h (count delta k h c).
Proof.
  intros Hc. split; [apply count_length|].
  split; [by apply count_closed|apply count_extends].
Qed.

Lemma Link_total h n k c :
  closed h → (n < length h)%nat → (c < length h)%nat →
  (structural k = false → (n < c)%nat) →
  ∃ h' e, Link h n k c = Ret (h', e) ∧ kept h h'.
Proof.
  intros Hc Hn Hlt Hord. destruct (deref_lt h n Hn) as (dn & Hdn & Hd).
  unfold Link. rewrite (bind_Ret _ _ _ Hd).
  destruct (negb (IsDir dn)); [by eauto using kept_refl|].
  destruct (find k (inode.Dir dn)) as [c'|] eqn:Hf.
  - destruct (String.eqb k "..") eqn:Hk; [|by eauto using kept_refl].
    do 2 eexists. split; [done|]. apply kept_set_Dir; [done..|].
    intros k' c0 [[= -> ->]|Hin]%elem_dir_rebind; [done|]. eauto.
  - do 2 eexists. split; [done|].
    eapply kept_trans; [|apply kept_count].
    + apply kept_set_Dir; [done..|].
      intros k' c0 [[= -> ->]|Hin]%elem_dir_insert; [done|]. eauto.
    + apply closed_insert; [done|]. simpl.
      intros k' c0 [[= -> ->]|Hin]%elem_dir_insert; [done|]. eauto.
Qed.

Lemma Unlink_total h n k :
  closed h → (n < length h)%nat →
  ∃ h' e, Unlink h n k = Ret (h', e) ∧ kept h h'.
Proof.
  intros Hc Hn. destruct (deref_lt h n Hn) as (dn & Hdn & Hd).
  unfold Unlink. rewrite (bind_Ret _ _ _ Hd).
  destruct (find k (inode.Dir dn)) as [c'|] eqn:Hf; [|by eauto using kept_refl].
  do 2 eexists. split; [done|].
  eapply kept_trans; [|apply kept_count].
  - apply kept_set_Dir; [done..|]. intros k' c0 Hin%elem_dir_remove. eauto.
  - apply closed_insert; [done|]. simpl. intros k' c0 Hin%elem_dir_remove. eauto.
Qed.

Lemma descend_total h cur segs :
  closed h → (cur < length h)%nat →
  ∃ r, descend h cur segs = Ret r ∧ resolved h r.
Proof.
  intros Hc. revert cur. induction segs as [|s segs IH]; intros cur Hcur.
  - by exists (inl cur).
  - destruct (deref_lt h cur Hcur) as (dn & Hdn & Hd).
    simpl. rewrite (bind_Ret _ _ _ Hd).
    destruct (negb (IsDir dn)).
    { eexists. split; [done|]. by right. }
    destruct (find s (inode.Dir dn)) as [c|] eqn:Hf.
    + apply IH. apply find_Some_elem in Hf. by eapply closed_lt.
    + eexists. split; [done|]. by left.
Qed.

Lemma Resolve_total h root W p :
  closed h → (root < length h)%nat → (W < length h)%nat →
  ∃ r, Resolve h root W p = Ret r ∧ resolved h r.
Proof.
  intros Hc Hr HW. unfold Resolve. apply descend_total; [done|].
  by destruct (IsAbs p).
Qed.

Lemma resolved_kind h e :
  resolved h (inr e) →
  kind_of e = Some NO_SUCH_ENTRY ∨ kind_of e = Some NOT_A_DIRECTORY.
Proof. intros [->| ->]; [by left|by right]. Qed.

Lemma unlink_entries_kept below n entries :
  (∀ h c h', closed h → (c < length h)%nat → below h c = Ret h' → kept h h') →
  ∀ h h', closed h → (n < length h)%nat →
    (∀ k c, (k, c) ∈ entries → (c < length h)%nat) →
    unlink_entries below h n entries = Ret h' → kept h h'.
Proof.
  intros Hbelow. induction entries as [|[k c] entries IH]; intros h h' Hc Hn Hin H.
  - injection H as <-. by apply kept_refl.
  - simpl in H. destruct (structural k).
    { eapply IH; eauto. intros. eapply Hin. by right. }
    bind_inv H h1 H1. bind_inv H u Hu.
    assert (kept h h1) as K1.
    { apply (Hbelow h c h1 Hc); [|done]. apply (Hin k). left. }
    destruct K1 as (L1 & C1 & E1).
    destruct (Unlink_total h1 n k C1 ltac:(lia)) as (h2 & e & Hu' & K2).
    rewrite Hu' in Hu. injection Hu as <-. simpl in H.
    eapply kept_trans; [by split|]. eapply kept_trans; [exact K2|].
    destruct K2 as (L2 & C2 & E2).
    eapply IH; eauto; [lia|].
    intros k' c' Hin'. rewrite L2, L1. eapply Hin. by right.
Qed.

Lemma UnlinkAll_kept fuel h n h' :
  closed h → (n < length h)%nat → UnlinkAll fuel h n = Ret h' → kept h h'.
Proof.
  revert h n h'. induction fuel as [|fuel IH]; intros h n h' Hc Hn H; [done|].
  simpl in H. bind_inv H dn Hd. apply deref_Ret_inv in Hd.
  eapply unlink_entries_kept; eauto.
  intros k c Hin. by eapply closed_lt.
Qed.

(** ** Well-formed filesystem states *)

Lemma wf_NewFS : wf NewFS.
Proof.
  split; try done.
  - eexists. split; reflexivity.
  - simpl. lia.
  - intros l n k c Hl Hin. destruct l as [|l]; [|done].
    injection Hl as <-. simpl in *.
    apply elem_of_cons in Hin as [[= -> ->]|Hin]; [split; [lia|done]|].
    apply list_elem_of_singleton in Hin as [= -> ->]. split; [lia|done].
Qed.

Lemma wf_root_lt m fs : wf_at m fs → (root fs < length (inodes fs))%nat.
Proof. intros [_ (r & Hr & _) _ _ _]. by eapply lookup_lt_Some. Qed.

(** A step that keeps [root] and [dir], does not shorten the payload
    array, and extends the store to a closed one keeps well-formedness. *)
Lemma wf_step m m' fs fs' :
  wf_at m fs →
  mtx fs' = m' → root fs' = root fs → dir fs' = dir fs →
  (length (data fs) ≤ length (data fs'))%nat →
  closed (inodes fs') → extends (inodes fs) (inodes fs') →
  wf_at m' fs'.
Proof.
  intros [Hm (r & Hr & Hi) Hd Hdat Hc] Hm' Hroot Hdir Hlen Hc' [Hl He].
  split; [done| |lia|lia|done].
  rewrite Hroot. destruct (He _ _ Hr) as (r' & Hr' & Hi').
  exists r'. split; [done|congruence].
Qed.

Lemma wf_set_mtx m m' fs : wf_at m fs → wf_at m' (set_mtx fs m').
Proof.
  intros H. eapply wf_step; eauto; try done. apply H. apply extends_refl.
Qed.

Lemma wf_Resolve m fs W p :
  wf_at m fs → (W < length (inodes fs))%nat →
  ∃ r, Resolve (inodes fs) (root fs) W p = Ret r ∧ resolved (inodes fs) r.
Proof.
  intros H HW. apply Resolve_total; [apply H| by eapply wf_root_lt |done].
Qed.

Lemma update_sealed_inv fs p g fs' :
  update_sealed fs p g = Ret fs' →
  ∃ s, fs' = set_data fs (<[p := Some (g s)]> (data fs)).
Proof.
  unfold update_sealed. intros H. bind_inv H s Hs. exists s. by injection H.
Qed.

Lemma wf_update_sealed m fs p g fs' :
  wf_at m fs → update_sealed fs p g = Ret fs' → wf_at m fs'.
Proof.
  intros H [s ->]%update_sealed_inv.
  eapply wf_step; eauto; try done; simpl.
  - apply H.
  - by rewrite length_insert.
  - apply H.
  - apply extends_refl.
Qed.

(** [Lock(); defer Unlock()] around a body that keeps well-formedness. *)
Lemma Lock_defer_Unlock_total {A} fs (body : FileSystem → outcome (FileSystem * A)) :
  wf fs →
  (∀ fs0, fs0 = set_mtx fs write_locked → wf_at write_locked fs0 →
     ∃ fs1 a, body fs0 = Ret (fs1, a) ∧ wf_at write_locked fs1) →
  ∃ fs' a, Lock_defer_Unlock fs body = Ret (fs', a) ∧ wf fs'.
Proof.
  intros Hwf Hbody. unfold Lock_defer_Unlock.
  rewrite (wf_mtx _ _ Hwf). simpl.
  destruct (Hbody (set_mtx fs write_locked)) as (fs1 & a & Hb & Hwf1); [done|..].
  { by apply (wf_set_mtx unlocked). }
  unfold write_locked in Hb. rewrite Hb. simpl.
  rewrite (wf_mtx _ _ Hwf1). simpl.
  do 2 eexists. split; [done|]. by apply (wf_set_mtx write_locked).
Qed.

Lemma NewDir_kept h ino mode :
  closed h →
  closed (NewDir h ino mode).1.1
  ∧ extends h (NewDir h ino mode).1.1
  ∧ length (NewDir h ino mode).1.1 = S (length h)
  ∧ (NewDir h ino mode).2 = length h.
Proof.
  intros Hc. unfold NewDir. simpl. split; [|split; [|split]].
  - apply closed_snoc; [done|]. simpl. intros k c Hin.
    apply elem_of_cons in Hin as [[= -> ->]|Hin]; [split; [lia|done]|].
    apply list_elem_of_singleton in Hin as [= -> ->]. split; [lia|done].
  - apply extends_snoc.
  - rewrite length_app. simpl. lia.
  - done.
Qed.

Lemma New_kept h ino mode :
  closed h →
  closed (New h ino mode).1.1
  ∧ extends h (New h ino mode).1.1
  ∧ length (New h ino mode).1.1 = S (length h)
  ∧ (New h ino mode).2 = length h.
Proof.
  intros Hc. unfold New. simpl. split; [|split; [|split]].
  - apply closed_snoc; [done|]. simpl. by intros k c Hin%elem_of_nil.
  - apply extends_snoc.
  - rewrite length_app. simpl. lia.
  - done.
Qed.

(** The parent lookup shared by [Mkdir] and [RemoveAll]. *)
Lemma parent_total m fs d :
  wf_at m fs →
  ∃ rp, (if String.eqb d "/" then Ret (inl (root fs))
         else Resolve (inodes fs) (root fs) (root fs) (TrimLeftSlash d)) = Ret rp
        ∧ resolved (inodes fs) rp.
Proof.
  intros H. destruct (String.eqb d "/").
  - eexists. split; [done|]. simpl. by eapply wf_root_lt.
  - eapply wf_Resolve; [done|]. by eapply wf_root_lt.
Qed.

(** [Mkdir] returns in every well-formed state, and the state stays
    well-formed. *)
Lemma Mkdir_total fs name perm :
  wf fs → ∃ fs' e, Mkdir fs name perm = Ret (fs', e) ∧ wf fs'.
Proof.
  intros Hwf. apply Lock_defer_Unlock_total; [done|].
  intros fs0 _ H0. cbv beta.
  destruct (wf_Resolve _ fs0 (if IsAbs name then root fs0 else dir fs0) name H0)
    as (r & Hr & _).
  { destruct (IsAbs name); [by eapply wf_root_lt|apply H0]. }
  rewrite (bind_Ret _ _ _ Hr).
  destruct r as [?|?]; [by eauto|].
  destruct (Split _) as [d filename].
  destruct (parent_total _ fs0 (Clean d) H0) as (rp & Hrp & Hres).
  rewrite (bind_Ret _ _ _ Hrp).
  destruct rp as [parent|err]; [|by eauto]. simpl in Hres.
  pose proof (NewDir_kept (inodes fs0) (ino fs0) (Z.land (Umask fs0) perm)
                (wf_closed _ _ H0)) as (C1 & E1 & L1 & Hchild).
  destruct (NewDir _ _ _) as [[h1 ino1] child]. simpl in *. subst child.
  destruct (Link_total h1 parent filename (length (inodes fs0)) C1)
    as (h2 & e2 & HL2 & K2); [lia..|].
  rewrite (bind_Ret _ _ _ HL2). simpl.
  destruct K2 as (L2 & C2 & E2).
  destruct (Link_total h2 (length (inodes fs0)) ".." parent C2)
    as (h3 & e3 & HL3 & K3); [lia..|done|].
  rewrite (bind_Ret _ _ _ HL3). simpl.
  destruct K3 as (L3 & C3 & E3).
  do 2 eexists. split; [done|].
  eapply wf_step; [exact H0|..]; simpl; try done.
  - apply H0.
  - rewrite length_app. lia.
  - eapply extends_trans; [exact E1|]. by eapply extends_trans.
Qed.

Lemma MkdirAll_loop_total fs perm path ps :
  wf fs → ∃ fs', MkdirAll_loop fs perm path ps = Ret fs' ∧ wf fs'.
Proof.
  revert fs path. induction ps as [|p ps IH]; intros fs path Hwf.
  - by exists fs.
  - simpl.
    destruct (Mkdir_total fs (Join path (if String.eqb p "" then "/" else p)) perm Hwf)
      as (fs1 & e & HM & Hwf1).
    rewrite (bind_Ret _ _ _ HM). simpl. by apply IH.
Qed.

Lemma MkdirAll_unfold fs name perm :
  wf fs →
  MkdirAll fs name perm =
    (fs1 ← MkdirAll_loop fs perm "" (SplitSlash (Abs (cwd fs) name));
     Ret (fs1, None)).
Proof.
  intros Hwf. unfold MkdirAll. rewrite (wf_mtx _ _ Hwf). simpl.
  replace (set_mtx fs _) with fs; [done|].
  destruct fs. simpl in *. unfold set_mtx. simpl.
  pose proof (wf_mtx _ _ Hwf) as Hm. simpl in Hm. by rewrite Hm.
Qed.


(** ** OpenFile on the root *)

(** C9. In every well-formed state, whatever the flags and the
    permission argument, [OpenFile("/", flag, perm)] returns without
    error a handle on the root inode, bound to the record of the root's
    slot, and leaves the state as it is. None of the checks made for other
    paths (directory opened for writing or truncation, exclusive create,
    permission bits) is made: the result does not depend on [flag] or on
    the mode of the root. *)
Theorem OpenFile_root fs flag perm :
  wf fs →
  ∃ d, slot fs 1 = Ret d
       ∧ OpenFile fs "/" flag perm
         = Ret (fs, (VFSFile (mkFile "/" flag (root fs) d 0), None)).
Proof.
  intros [_ (r & Hr & Hi) _ Hdat _]. unfold OpenFile. simpl String.eqb. cbv iota.
  rewrite (bind_Ret _ _ _ (deref_Some _ _ _ Hr)), Hi.
  change (int_of_uint64 1) with 1.
  assert (∃ d, slot fs 1 = Ret d) as [d Hd].
  { unfold slot. change (1 <? 0) with false. change (Z.to_nat 1) with 1%nat.
    destruct (data fs !! 1%nat) as [[s|]|] eqn:E; [by eauto..|].
    apply lookup_ge_None_1 in E. lia. }
  exists d. split; [done|]. by rewrite (bind_Ret _ _ _ Hd).
Qed.

Lemma OpenFile_root_witness :
  ∃ d, slot NewFS 1 = Ret d
       ∧ OpenFile NewFS "/" (Z.lor (Z.lor O_RDWR O_TRUNC) (Z.lor O_CREATE O_EXCL)) 0
         = Ret (NewFS,
                (VFSFile (mkFile "/" (Z.lor (Z.lor O_RDWR O_TRUNC) (Z.lor O_CREATE O_EXCL))
                                 (root NewFS) d 0), None)).
Proof. apply (OpenFile_root NewFS). apply wf_NewFS. Defined.

(** ** Truncate with a negative size *)

(** C7. For every name and every negative size, [Truncate] returns at
    once, the state untouched, with a [PathError] around [os.ErrClosed]
    ("file already closed"). That error is not of kind [INVALID]: it is of
    no kind at all. *)
Theorem Truncate_negative_size Encrypt Decrypt Seal EnclaveOpen fs name size newKey :
  size < 0 →
  Truncate Encrypt Decrypt Seal EnclaveOpen fs name size newKey
    = Ret (fs, Some (PathError "truncate" name ErrClosed))
  ∧ kind_of (PathError "truncate" name ErrClosed) = None
  ∧ kind_of (PathError "truncate" name ErrClosed) ≠ Some INVALID.
Proof.
  intros Hs. unfold Truncate.
  destruct (size <? 0) eqn:E; [done|]. apply Z.ltb_ge in E. lia.
Qed.

Lemma Truncate_negative_size_witness :
  Truncate (λ p _, (p, None)) (λ c _ _, (c, None)) id (λ k, (k, None))
           NewFS "/f" (-1) []
    = Ret (NewFS, Some (PathError "truncate" "/f" ErrClosed))
  ∧ kind_of (PathError "truncate" "/f" ErrClosed) = None
  ∧ kind_of (PathError "truncate" "/f" ErrClosed) ≠ Some INVALID.
Proof. apply Truncate_negative_size. lia. Defined.

(** ** MkdirAll *)

(** C3, as stated, fails: with [/f] a regular file, the call of [Mkdir]
    that [MkdirAll("/f/x/y")] makes for its last level returns an error
    of kind [NOT_A_DIRECTORY], which is not [EXISTS], and [MkdirAll]
    returns [nil] all the same. *)
Lemma MkdirAll_drops_error :
  ∃ fs mid mid' e fs',
    fs_with_file = Ret fs
    ∧ MkdirAll_loop fs 511 "" [""; "f"; "x"] = Ret mid
    ∧ Mkdir mid "/f/x/y" 511 = Ret (mid', Some e)
    ∧ kind_of e = Some NOT_A_DIRECTORY
    ∧ MkdirAll fs "/f/x/y" 511 = Ret (fs', None).
Proof.
  do 5 eexists.
  split; [vm_compute; reflexivity|].
  split; [vm_compute; reflexivity|].
  split; [vm_compute; reflexivity|].
  split; vm_compute; reflexivity.
Qed.

(** C3, amended. In every well-formed state [MkdirAll] returns, and
    returns [nil]: it calls [Mkdir] for every level of the absolute path
    in turn ([MkdirAll_loop]) and drops what each call returns, whatever
    the kind of the error. *)
Theorem MkdirAll_returns_nil fs name perm :
  wf fs →
  ∃ fs', MkdirAll fs name perm = Ret (fs', None)
         ∧ MkdirAll_loop fs perm "" (SplitSlash (Abs (cwd fs) name)) = Ret fs'
         ∧ wf fs'.
Proof.
  intros Hwf. rewrite (MkdirAll_unfold _ _ _ Hwf).
  destruct (MkdirAll_loop_total fs perm "" (SplitSlash (Abs (cwd fs) name)) Hwf)
    as (fs' & Hl & Hwf').
  exists fs'. by rewrite Hl.
Qed.

Lemma MkdirAll_returns_nil_witness :
  ∃ fs', MkdirAll NewFS "/a/b" 511 = Ret (fs', None)
         ∧ MkdirAll_loop NewFS 511 "" (SplitSlash (Abs (cwd NewFS) "/a/b")) = Ret fs'
         ∧ wf fs'.
Proof. apply (MkdirAll_returns_nil NewFS). apply wf_NewFS. Defined.

(** On the empty filesystem the levels are created one below the other. *)
Example MkdirAll_creates_levels :
  ∃ fs' a b,
    MkdirAll NewFS "/a/b" 511 = Ret (fs', None)
    ∧ Resolve (inodes fs') (root fs') (root fs') "/a" = Ret (inl a)
    ∧ Resolve (inodes fs') (root fs') (root fs') "/a/b" = Ret (inl b)
    ∧ (IsDir <$> inodes fs' !! a) = Some true
    ∧ (IsDir <$> inodes fs' !! b) = Some true.
Proof.
  do 3 eexists.
  split; [vm_compute; reflexivity|].
  split; [vm_compute; reflexivity|].
  split; [vm_compute; reflexivity|].
  split; vm_compute; reflexivity.
Qed.

(** ** OpenFile with CREATE on a missing path *)

Lemma Link_insert h n dn k c :
  h !! n = Some dn → IsDir dn = true → find k (inode.Dir dn) = None →
  Link h n k c
  = Ret (count 1 k (<[n := with_Dir dn (dir_insert k c (inode.Dir dn))]> h) c, None).
Proof.
  intros Hn Hd Hf. unfold Link.
  by rewrite (bind_Ret _ _ _ (deref_Some _ _ _ Hn)), Hd, Hf.
Qed.

Lemma find_dir_insert k c d :
  find k d = None → find k (dir_insert k c d) = Some c.
Proof.
  induction d as [|[k' c'] d IH]; simpl.
  - by rewrite String.eqb_refl.
  - destruct (String.eqb k' k) eqn:E; [done|]. intros Hf.
    destruct (String.ltb k k'); simpl.
    + by rewrite String.eqb_refl.
    + rewrite E. by apply IH.
Qed.

(** The end of [OpenFile] for a node whose slot holds a record, when
    CREATE is set: no permission check, a handle on the node. *)
Lemma OpenFile_finish_create fs name flag node n p :
  Z.land flag O_CREATE ≠ 0 →
  inodes fs !! node = Some n →
  slot fs (int_of_uint64 (Ino n)) = Ret (Some p) →
  ∃ fs' file n',
    OpenFile_finish fs name flag node = Ret (fs', (VFSFile file, None))
    ∧ File_node file = node
    ∧ inodes fs' !! node = Some n'
    ∧ Mode n' = Mode n ∧ Ino n' = Ino n
    ∧ (∀ l, l ≠ node → inodes fs' !! l = inodes fs !! l)
    ∧ length (data fs') = length (data fs).
Proof.
  intros Hc Hn Hs. unfold OpenFile_finish.
  rewrite (bind_Ret _ _ _ (deref_Some _ _ _ Hn)), (bind_Ret _ _ _ Hs).
  apply Z.eqb_neq in Hc. rewrite Hc. cbn [negb andb].
  assert (∃ s, data fs !! p = Some (Some s)) as [s Hp].
  { unfold slot in Hs. destruct (_ <? 0); [done|].
    destruct (data fs !! _) as [[s|]|] eqn:E; try done.
    injection Hs as <-. eauto. }
  destruct (negb (Z.land flag O_TRUNC =? 0)), (negb (Z.land flag O_APPEND =? 0));
    unfold update_sealed, sealed_at; simpl; rewrite Hp; simpl;
    do 3 eexists; (split; [done|]); simpl;
    rewrite ?list_lookup_insert_eq by eauto using lookup_lt_Some;
    (split; [done|]); (split; [done|]); (split; [done|]); (split; [done|]);
    (split; [|by rewrite length_insert]);
    intros l Hl; by rewrite ?list_lookup_insert_ne.
Qed.

(** C1, as stated, fails: on the filesystem that [NewFS] returns (umask
    field 0755), creating [/f] with permissions 0644 gives an inode whose
    permission bits are 0644, which is [perm & umask], whereas
    [perm & ~umask] is 0. *)
Lemma OpenFile_create_not_complement :
  ∃ fs' file n,
    Resolve (inodes NewFS) (root NewFS) (root NewFS) "/f"
      = Ret (inr (SyscallErrno ENOENT))
    ∧ OpenFile NewFS "/f" (Z.lor O_CREATE O_RDWR) 420
      = Ret (fs', (VFSFile file, None))
    ∧ inodes fs' !! File_node file = Some n
    ∧ Z.land (Mode n) ModePerm = 420
    ∧ Z.land 420 (Z.lnot (Umask NewFS)) = 0
    ∧ Z.land (Mode n) ModePerm ≠ Z.land 420 (Z.lnot (Umask NewFS)).
Proof.
  do 3 eexists.
  split; [vm_compute; reflexivity|].
  split; [vm_compute; reflexivity|].
  split; [vm_compute; reflexivity|].
  split; [vm_compute; reflexivity|].
  split; [vm_compute; reflexivity|].
  vm_compute. discriminate.
Qed.

(** C1, amended. When [OpenFile] is called with CREATE on a path that
    does not resolve, whose parent resolves to a directory without the
    name, in a state where the payload array is as long as the inode
    counter says, it returns a handle on a new inode that is linked into
    the parent under the name, and the mode of that inode is
    [umask & perm]: the requested permissions masked by the umask field
    itself, not by its complement. *)
Theorem OpenFile_create_mode fs name flag perm e0 d filename parent pn :
  String.eqb name "/" = false →
  String.eqb name "." = false →
  Z.land flag O_CREATE ≠ 0 →
  let wd := if IsAbs name then root fs else dir fs in
  Resolve (inodes fs) (root fs) wd name = Ret (inr e0) →
  Split name = (d, filename) →
  Resolve (inodes fs) (root fs) wd (Clean d) = Ret (inl parent) →
  inodes fs !! parent = Some pn → IsDir pn = true →
  find filename (inode.Dir pn) = None →
  0 ≤ ino fs → ino fs + 1 < 2 ^ 63 →
  Z.of_nat (length (data fs)) = ino fs + 1 →
  ∃ fs' file n pn',
    OpenFile fs name flag perm = Ret (fs', (VFSFile file, None))
    ∧ File_node file = length (inodes fs)
    ∧ inodes fs' !! File_node file = Some n
    ∧ Ino n = ino fs + 1
    ∧ Mode n = Z.land (Umask fs) perm
    ∧ Z.land (Mode n) ModePerm = Z.land (Z.land (Umask fs) perm) ModePerm
    ∧ inodes fs' !! parent = Some pn'
    ∧ find filename (inode.Dir pn') = Some (File_node file).
Proof.
  intros Hn1 Hn2 Hc wd Hr Hsp Hrp Hpn Hdir Hfind Hi0 Hi1 Hsync.
  unfold OpenFile. rewrite Hn1, Hn2. fold wd.
  rewrite (bind_Ret _ _ _ Hr), Hsp, (bind_Ret _ _ _ Hrp).
  pose proof Hc as Hc'. apply Z.eqb_neq in Hc'. rewrite Hc'. cbn [negb andb].
  unfold New.
  set (node := length (inodes fs)).
  set (ino1 := (ino fs + 1) `mod` 2 ^ 64).
  assert (ino1 = ino fs + 1) as Hino1 by (unfold ino1; apply Z.mod_small; lia).
  set (new := mkInode ino1 (Z.land (Umask fs) perm) 0 0 0 0 []).
  assert (parent < node)%nat as Hlt by (by eapply lookup_lt_Some).
  set (h1 := (inodes fs ++ [new])%list).
  assert (length h1 = S node) as Hlen.
  { unfold h1. rewrite length_app. simpl. unfold node. lia. }
  erewrite Link_insert; [|by apply lookup_app_l_Some|done..].
  rewrite bind_Ret with (a := (count 1 filename
     (<[parent := with_Dir pn (dir_insert filename node (inode.Dir pn))]> h1)
     node, None)) by done.
  cbn [fst snd].
  set (h2 := count 1 filename _ node).
  destruct (count_lookup_fwd 1 filename
              (<[parent := with_Dir pn (dir_insert filename node (inode.Dir pn))]> h1)
              node node new) as (n & Hn & HnI & HnM & _).
  { rewrite list_lookup_insert_ne by lia. apply list_lookup_middle. done. }
  destruct (count_lookup_fwd 1 filename
              (<[parent := with_Dir pn (dir_insert filename node (inode.Dir pn))]> h1)
              node parent
              (with_Dir pn (dir_insert filename node (inode.Dir pn))))
    as (pn' & Hpn' & _ & _ & _ & HpD).
  { apply list_lookup_insert_eq. rewrite Hlen. lia. }
  fold h2 in Hn, Hpn'.
  set (fs2 := set_data _ _).
  destruct (OpenFile_finish_create fs2 name flag node n (length (data fs)) Hc)
    as (fs' & file & n' & HO & Hfn & Hn' & HM & HI & Hother & _).
  { done. }
  { unfold slot, fs2. simpl. rewrite HnI. simpl. rewrite Hino1.
    unfold int_of_uint64.
    destruct (ino fs + 1 <? 2 ^ 63) eqn:E1; [|apply Z.ltb_ge in E1; lia].
    destruct (ino fs + 1 <? 0) eqn:E2; [apply Z.ltb_lt in E2; lia|].
    rewrite <- Hsync, Nat2Z.id.
    by rewrite list_lookup_middle. }
  exists fs', file, n', pn'. rewrite HO, Hfn.
  repeat split; try done.
  - rewrite HI, HnI. simpl. done.
  - rewrite HM, HnM. done.
  - rewrite HM, HnM. done.
  - rewrite Hother by lia. done.
  - rewrite HpD. simpl. by apply find_dir_insert.
Qed.

Lemma OpenFile_create_mode_witness :
  ∃ fs' file n pn',
    OpenFile NewFS "/f" (Z.lor O_CREATE O_RDWR) 420 = Ret (fs', (VFSFile file, None))
    ∧ File_node file = length (inodes NewFS)
    ∧ inodes fs' !! File_node file = Some n
    ∧ Ino n = ino NewFS + 1
    ∧ Mode n = Z.land (Umask NewFS) 420
    ∧ Z.land (Mode n) ModePerm = Z.land (Z.land (Umask NewFS) 420) ModePerm
    ∧ inodes fs' !! 0%nat = Some pn'
    ∧ find "f" (inode.Dir pn') = Some (File_node file).
Proof.
  eapply (OpenFile_create_mode NewFS "/f" _ 420 (SyscallErrno ENOENT) "/" "f" 0%nat);
    try reflexivity; vm_compute; congruence.
Defined.

(** ** Mkdir where the parent directory exists *)

Lemma land_lor_absorb a b : Z.land (Z.lor a b) a = a.
Proof.
  apply Z.bits_inj'. intros n Hn. rewrite Z.land_spec, Z.lor_spec.
  by destruct (Z.testbit a n), (Z.testbit b n).
Qed.

(** What [MkdirAll] relies on at each level: when the path does not
    resolve and its parent resolves to a directory without the name,
    [Mkdir] links a new directory under the name, with mode
    [ModeDir | umask & perm] and with [..] bound to the parent. *)
Lemma Mkdir_creates fs name perm e0 d filename parent pn :
  wf fs →
  Resolve (inodes fs) (root fs) (if IsAbs name then root fs else dir fs) name
    = Ret (inr e0) →
  Split (if IsAbs name then name else Join (cwd fs) name) = (d, filename) →
  (if String.eqb (Clean d) "/" then Ret (inl (root fs))
   else Resolve (inodes fs) (root fs) (root fs) (TrimLeftSlash (Clean d)))
    = Ret (inl parent) →
  inodes fs !! parent = Some pn → IsDir pn = true →
  find filename (inode.Dir pn) = None →
  ∃ fs' n pn',
    Mkdir fs name perm = Ret (fs', None)
    ∧ inodes fs' !! length (inodes fs) = Some n
    ∧ IsDir n = true
    ∧ Mode n = Z.lor ModeDir (Z.land (Umask fs) perm)
    ∧ find ".." (inode.Dir n) = Some parent
    ∧ inodes fs' !! parent = Some pn'
    ∧ find filename (inode.Dir pn') = Some (length (inodes fs)).
Proof.
  intros Hwf Hr Hsp Hrp Hpn Hdir Hfind.
  unfold Mkdir, Lock_defer_Unlock. rewrite (wf_mtx _ _ Hwf). simpl.
  rewrite (bind_Ret _ _ _ Hr), Hsp, (bind_Ret _ _ _ Hrp).
  unfold NewDir.
  set (node := length (inodes fs)).
  set (mode := Z.lor ModeDir (Z.land (Umask fs) perm)).
  set (new := mkInode ((ino fs + 1) `mod` 2 ^ 64) mode 0 0 0 0
                      [(".", node); ("..", node)]).
  set (h1 := (inodes fs ++ [new])%list).
  assert (parent < node)%nat as Hlt by (by eapply lookup_lt_Some).
  assert (length h1 = S node) as Hlen.
  { unfold h1. rewrite length_app. simpl. unfold node. lia. }
  erewrite Link_insert; [|by apply lookup_app_l_Some|done..].
  set (h2 := count 1 filename
               (<[parent := with_Dir pn (dir_insert filename node (inode.Dir pn))]> h1)
               node).
  rewrite bind_Ret with (a := (h2, None)) by done. cbn [fst snd].
  destruct (count_lookup_fwd 1 filename
              (<[parent := with_Dir pn (dir_insert filename node (inode.Dir pn))]> h1)
              node node new) as (n & Hn & HnI & HnM & _ & HnD).
  { rewrite list_lookup_insert_ne by lia. apply list_lookup_middle. done. }
  destruct (count_lookup_fwd 1 filename
              (<[parent := with_Dir pn (dir_insert filename node (inode.Dir pn))]> h1)
              node parent
              (with_Dir pn (dir_insert filename node (inode.Dir pn))))
    as (pn' & Hpn' & _ & _ & _ & HpD).
  { apply list_lookup_insert_eq. rewrite Hlen. lia. }
  fold h2 in Hn, Hpn'.
  assert (IsDir n = true) as HnDir.
  { unfold IsDir. rewrite HnM. simpl. unfold mode.
    rewrite land_lor_absorb. done. }
  assert (Link h2 node ".." parent
          = Ret (<[node := with_Dir n (dir_rebind ".." parent (inode.Dir n))]> h2, None))
    as HL2.
  { unfold Link. rewrite (bind_Ret _ _ _ (deref_Some _ _ _ Hn)), HnDir, HnD. done. }
  rewrite (bind_Ret _ _ _ HL2). cbn [fst snd]. simpl.
  eexists _, (with_Dir n (dir_rebind ".." parent (inode.Dir n))), pn'.
  split; [done|]. simpl.
  assert (node < length h2)%nat as Hnode by (by eapply lookup_lt_Some).
  rewrite list_lookup_insert_eq by done.
  rewrite list_lookup_insert_ne by lia.
  repeat split; try done.
  - by rewrite HnD.
  - rewrite HpD. simpl. by apply find_dir_insert.
Qed.

(** ** Symlink *)

(** C5, as stated, fails: on the empty filesystem the parent [/] of
    [/lnk] exists and has no entry [lnk], yet
    [Symlink("/nonexistent", "/lnk")] fails, because the target does not
    resolve. Nothing is recorded. *)
Lemma Symlink_dangling_target_refused :
  Resolve (inodes NewFS) (root NewFS) (root NewFS) "/lnk"
    = Ret (inr (SyscallErrno ENOENT))
  ∧ Resolve (inodes NewFS) (root NewFS) (root NewFS) (Clean (Split "/lnk").1)
    = Ret (inl (root NewFS))
  ∧ (find "lnk" ∘ inode.Dir <$> inodes NewFS !! root NewFS) = Some None
  ∧ Symlink NewFS "/nonexistent" "/lnk"
    = Ret (NewFS, Some (PathError "symlink" "/nonexistent" (SyscallErrno ENOENT))).
Proof.
  split; [vm_compute; reflexivity|].
  split; [vm_compute; reflexivity|].
  split; vm_compute; reflexivity.
Qed.

(** C5, amended. Let the link path not resolve, and its parent resolve
    to a directory without the basename. If the target resolves (from the
    directory the link path selects), [Symlink] succeeds: a new inode with
    the symlink bit is linked under the basename and the symlink table
    maps its number to the target string, byte for byte. If the target
    does not resolve, [Symlink] fails [NO_SUCH_ENTRY] and the state,
    table included, stays as it was. *)
Theorem Symlink_stores_target fs oldname newname e0 d filename parent pn ro :
  wf fs →
  let wd := if IsAbs newname then root fs else dir fs in
  Resolve (inodes fs) (root fs) wd newname = Ret (inr e0) →
  Split newname = (d, filename) →
  Resolve (inodes fs) (root fs) wd (Clean d) = Ret (inl parent) →
  inodes fs !! parent = Some pn → IsDir pn = true →
  find filename (inode.Dir pn) = None →
  Resolve (inodes fs) (root fs) wd oldname = Ret ro →
  match ro with
  | inl oldNode =>
      let ino1 := (ino fs + 1) `mod` 2 ^ 64 in
      ∃ fs' on n pn',
        Symlink fs oldname newname = Ret (fs', None)
        ∧ inodes fs !! oldNode = Some on
        ∧ symlinks fs' = <[ino1 := oldname]> (symlinks fs)
        ∧ symlink_target fs' ino1 = oldname
        ∧ inodes fs' !! length (inodes fs) = Some n
        ∧ Ino n = ino1
        ∧ Mode n = Z.lor (Mode on) ModeSymlink
        ∧ inodes fs' !! parent = Some pn'
        ∧ find filename (inode.Dir pn') = Some (length (inodes fs))
  | inr _ =>
      Symlink fs oldname newname
      = Ret (fs, Some (PathError "symlink" oldname (SyscallErrno ENOENT)))
      ∧ kind_of (PathError "symlink" oldname (SyscallErrno ENOENT))
        = Some NO_SUCH_ENTRY
  end.
Proof.
  intros Hwf wd Hrn Hsp Hrp Hpn Hdir Hfind Hro.
  unfold Symlink. fold wd. rewrite (bind_Ret _ _ _ Hrn). simpl.
  rewrite (bind_Ret _ _ _ Hro).
  destruct ro as [oldNode|e]; [|done].
  assert (∃ on, inodes fs !! oldNode = Some on) as [on Hon].
  { destruct (wf_Resolve _ fs wd oldname Hwf) as (r & Hr & Hres).
    - unfold wd. destruct (IsAbs newname); [by eapply wf_root_lt|apply Hwf].
    - rewrite Hro in Hr. injection Hr as <-. by apply lookup_lt_is_Some_2. }
  unfold Lock_defer_Unlock. rewrite (wf_mtx _ _ Hwf). simpl.
  rewrite (bind_Ret _ _ _ (deref_Some _ _ _ Hon)), Hsp.
  fold wd. rewrite (bind_Ret _ _ _ Hrp).
  unfold New.
  set (node := length (inodes fs)).
  set (ino1 := (ino fs + 1) `mod` 2 ^ 64).
  set (new := mkInode ino1 (Z.lor (Mode on) ModeSymlink) 0 0 0 0 []).
  set (h1 := (inodes fs ++ [new])%list).
  assert (parent < node)%nat as Hlt by (by eapply lookup_lt_Some).
  assert (length h1 = S node) as Hlen.
  { unfold h1. rewrite length_app. simpl. unfold node. lia. }
  erewrite Link_insert; [|by apply lookup_app_l_Some|done..].
  rewrite bind_Ret with (a := (count 1 filename
     (<[parent := with_Dir pn (dir_insert filename node (inode.Dir pn))]> h1)
     node, None)) by done.
  cbn [fst snd]. simpl.
  destruct (count_lookup_fwd 1 filename
              (<[parent := with_Dir pn (dir_insert filename node (inode.Dir pn))]> h1)
              node node new) as (n & Hn & HnI & HnM & _).
  { rewrite list_lookup_insert_ne by lia. apply list_lookup_middle. done. }
  destruct (count_lookup_fwd 1 filename
              (<[parent := with_Dir pn (dir_insert filename node (inode.Dir pn))]> h1)
              node parent
              (with_Dir pn (dir_insert filename node (inode.Dir pn))))
    as (pn' & Hpn' & _ & _ & _ & HpD).
  { apply list_lookup_insert_eq. rewrite Hlen. lia. }
  eexists _, on, n, pn'.
  split; [done|]. simpl. split; [done|]. split; [done|].
  split; [unfold symlink_target; simpl; by rewrite lookup_insert_eq|].
  split; [done|]. split; [done|]. split; [done|]. split; [done|].
  rewrite HpD. simpl. by apply find_dir_insert.
Qed.

(** ** The operations keep well-formedness *)

Lemma wf_set_node m fs l n n' :
  wf_at m fs → inodes fs !! l = Some n →
  inode.Dir n' = inode.Dir n → Ino n' = Ino n →
  wf_at m (set_inodes fs (<[l := n']> (inodes fs))).
Proof.
  intros H Hl Hd Hi. eapply wf_step; [exact H|..]; simpl; try done.
  - apply H.
  - apply closed_insert; [apply H|]. rewrite Hd. intros k c Hin.
    eapply (wf_closed _ _ H); eauto.
  - by eapply extends_insert.
Qed.

Lemma wf_Resolve_inv m fs W p l :
  wf_at m fs → (W < length (inodes fs))%nat →
  Resolve (inodes fs) (root fs) W p = Ret (inl l) →
  (l < length (inodes fs))%nat.
Proof.
  intros H HW Hr. destruct (wf_Resolve m fs W p H HW) as (r & Hr' & Hres).
  rewrite Hr in Hr'. by injection Hr' as <-.
Qed.

Lemma wf_wd m fs (b : bool) :
  wf_at m fs → ((if b then root fs else dir fs) < length (inodes fs))%nat.
Proof. intros H. destruct b; [by eapply wf_root_lt|apply H]. Qed.

Lemma OpenFile_finish_wf m fs name flag node fs' r :
  wf_at m fs → OpenFile_finish fs name flag node = Ret (fs', r) → wf_at m fs'.
Proof.
  intros Hwf H. unfold OpenFile_finish in H.
  bind_inv H n Hn. apply deref_Ret_inv in Hn. bind_inv H dat Hdat.
  destruct (_ && _); [by injection H as <- _|].
  destruct dat as [p|]; [|by injection H as <- _].
  bind_inv H fs2 H2. injection H as <- _.
  eapply wf_update_sealed; [|exact H2].
  destruct (negb (Z.land flag O_TRUNC =? 0)); [|done].
  by eapply wf_set_node.
Qed.

Lemma OpenFile_wf m fs name flag perm fs' r :
  wf_at m fs → OpenFile fs name flag perm = Ret (fs', r) → wf_at m fs'.
Proof.
  intros Hwf H. unfold OpenFile in H.
  destruct (String.eqb name "/").
  { bind_inv H n Hn. bind_inv H dat Hdat. by injection H as <- _. }
  destruct (String.eqb name ".").
  { bind_inv H n Hn. bind_inv H dat Hdat.
    destruct dat as [p|]; [|by injection H as <- _].
    bind_inv H fs1 H1. injection H as <- _. by eapply wf_update_sealed. }
  set (wd := if IsAbs name then root fs else dir fs) in *.
  assert (wd < length (inodes fs))%nat as Hwd by apply (wf_wd _ _ _ Hwf).
  bind_inv H rn Hrn. destruct (Split name) as [d filename].
  bind_inv H rp Hrp. destruct rp as [parent|err]; [|by injection H as <- _].
  pose proof (wf_Resolve_inv _ _ _ _ _ Hwf Hwd Hrp) as Hparent.
  destruct (_ && _); [by injection H as <- _|].
  destruct rn as [node|e].
  - destruct (_ && _); [by injection H as <- _|].
    bind_inv H n Hn. destruct (_ && _); [by injection H as <- _|].
    bind_inv H fs1 H1. eapply OpenFile_finish_wf; [|exact H].
    destruct (negb (Z.land flag O_TRUNC =? 0)); [|by injection H1 as <-].
    bind_inv H1 sfile Hs. destruct sfile as [p|]; [|done].
    by eapply wf_update_sealed.
  - destruct (negb _); [by injection H as <- _|].
    pose proof (New_kept (inodes fs) (ino fs) (Z.land (Umask fs) perm)
                  (wf_closed _ _ Hwf)) as (C1 & E1 & L1 & Hnode).
    destruct (New _ _ _) as [[h1 ino1] node]. simpl in *. subst node.
    bind_inv H lr Hlr.
    destruct (Link_total h1 parent filename (length (inodes fs)) C1)
      as (h2 & e2 & HL2 & (L2 & C2 & E2)); [lia..|].
    rewrite HL2 in Hlr. injection Hlr as <-. simpl in H.
    assert (extends (inodes fs) h2) as E by (by eapply extends_trans).
    destruct e2 as [err|].
    + injection H as <- _. eapply wf_step; [exact Hwf|..]; simpl; try done.
      apply Hwf.
    + eapply OpenFile_finish_wf; [|exact H].
      eapply wf_step; [exact Hwf|..]; simpl; try done.
      * apply Hwf.
      * rewrite length_app. lia.
Qed.

Lemma Symlink_total fs oldname newname :
  wf fs → ∃ fs' e, Symlink fs oldname newname = Ret (fs', e) ∧ wf fs'.
Proof.
  intros Hwf. unfold Symlink.
  set (wd := if IsAbs newname then root fs else dir fs).
  assert (wd < length (inodes fs))%nat as Hwd by apply (wf_wd _ _ _ Hwf).
  destruct (wf_Resolve _ fs wd newname Hwf Hwd) as (rn & Hrn & Hresn).
  rewrite (bind_Ret _ _ _ Hrn).
  destruct (wf_Resolve _ fs wd oldname Hwf Hwd) as (ro & Hro & Hreso).
  assert (∃ reject : bool,
            match rn with
            | inl newNode =>
                nn ← deref (inodes fs) newNode;
                Ret (Z.land (Mode nn) ModeSymlink =? 0)
            | inr _ => Ret false
            end = Ret reject) as [reject Hrej].
  { destruct rn as [newNode|?]; [|by eauto]. simpl in Hresn.
    destruct (deref_lt _ _ Hresn) as (nn & _ & Hd).
    rewrite (bind_Ret _ _ _ Hd). by eauto. }
  rewrite (bind_Ret _ _ _ Hrej).
  destruct reject; [by eauto|].
  rewrite (bind_Ret _ _ _ Hro).
  destruct ro as [oldNode|?]; [|by eauto]. simpl in Hreso.
  apply Lock_defer_Unlock_total; [done|]. intros fs0 -> H0. cbv beta.
  change (inodes (set_mtx fs write_locked)) with (inodes fs).
  change (root (set_mtx fs write_locked)) with (root fs).
  change (dir (set_mtx fs write_locked)) with (dir fs).
  destruct (deref_lt _ _ Hreso) as (on & Hon & Hd).
  rewrite (bind_Ret _ _ _ Hd).
  destruct rn as [newNode|?].
  - simpl in Hresn. destruct (deref_lt _ _ Hresn) as (nn & Hnn & Hdn).
    rewrite (bind_Ret _ _ _ Hdn). do 2 eexists. split; [done|].
    apply (wf_step write_locked write_locked
             (set_inodes (set_mtx fs write_locked)
                (<[newNode := with_Mode nn (Z.lor (Mode on) ModeSymlink)]> (inodes fs))));
      try done.
    + by apply (wf_set_node _ (set_mtx fs write_locked) _ nn).
    + simpl. apply closed_insert; [apply Hwf|]. simpl. intros k c Hin.
      eapply (wf_closed _ _ Hwf); eauto.
    + apply extends_refl.
  - destruct (Split newname) as [d filename]. fold wd.
    destruct (wf_Resolve _ fs wd (Clean d) Hwf Hwd) as (rp & Hrp & Hresp).
    rewrite (bind_Ret _ _ _ Hrp).
    destruct rp as [parent|err]; [|by eauto]. simpl in Hresp.
    pose proof (New_kept (inodes fs) (ino fs) (Z.lor (Mode on) ModeSymlink)
                  (wf_closed _ _ Hwf)) as (C1 & E1 & L1 & Hnode).
    destruct (New _ _ _) as [[h1 ino1] node]. simpl in *. subst node.
    destruct (Link_total h1 parent filename (length (inodes fs)) C1)
      as (h2 & e2 & HL2 & (L2 & C2 & E2)); [lia..|].
    rewrite (bind_Ret _ _ _ HL2). simpl.
    assert (extends (inodes fs) h2) as E by (by eapply extends_trans).
    destruct e2 as [err|]; do 2 eexists; (split; [done|]);
      (eapply wf_step; [exact H0|..]; simpl; try done).
Qed.

Lemma RemoveAll_wf m fuel fs name fs' e :
  wf_at m fs → RemoveAll fuel fs name = Ret (fs', e) → wf_at m fs'.
Proof.
  intros Hwf H. unfold RemoveAll in H.
  set (wd := if IsAbs name then root fs else dir fs) in *.
  assert (wd < length (inodes fs))%nat as Hwd by apply (wf_wd _ _ _ Hwf).
  bind_inv H r Hr. destruct r as [child|?]; [|by injection H as <- _].
  pose proof (wf_Resolve_inv _ _ _ _ _ Hwf Hwd Hr) as Hchild.
  destruct (Split _) as [d filename].
  destruct (parent_total _ fs (Clean d) Hwf) as (rp & Hrp & Hres).
  rewrite (bind_Ret _ _ _ Hrp) in H.
  destruct rp as [parent|?]; [|by injection H as <- _]. simpl in Hres.
  bind_inv H h1 H1. bind_inv H u Hu. injection H as <- _.
  pose proof (UnlinkAll_kept _ _ _ _ (wf_closed _ _ Hwf) Hchild H1) as (L1 & C1 & E1).
  destruct (Unlink_total h1 parent filename C1 ltac:(lia)) as (h2 & e2 & Hu' & (L2 & C2 & E2)).
  rewrite Hu' in Hu. injection Hu as <-. simpl.
  eapply wf_step; [exact Hwf|..]; simpl; try done.
  - apply Hwf.
  - by eapply extends_trans.
Qed.

Lemma reseal_wf Encrypt Seal m fs p file plaintext newKey fs' e :
  wf_at m fs →
  reseal Encrypt Seal fs p file plaintext newKey = Ret (fs', e) →
  wf_at m fs'.
Proof.
  intros Hwf H. unfold reseal in H. destruct (Encrypt _ _) as [ct err].
  bind_inv H fs1 H1. injection H as <- _.
  pose proof (wf_update_sealed _ _ _ _ _ Hwf H1) as Hwf1.
  unfold updateSize. destruct (inodes fs1 !! File_node file) eqn:E; [|done].
  by eapply wf_set_node.
Qed.

Lemma Truncate_wf Encrypt Decrypt Seal EnclaveOpen fs name size newKey fs' e :
  wf fs →
  Truncate Encrypt Decrypt Seal EnclaveOpen fs name size newKey = Ret (fs', e) →
  wf fs'.
Proof.
  intros Hwf H. unfold Truncate in H.
  destruct (size <? 0); [by injection H as <- _|].
  bind_inv H r Hr. destruct r as [child|?]; [|by injection H as <- _].
  bind_inv H c Hc. rewrite (wf_mtx _ _ Hwf) in H. simpl in H.
  bind_inv H file Hfile.
  assert (wf (set_mtx fs (mkRWMutex false O))) as Hwf0 by (by apply (wf_set_mtx unlocked)).
  destruct file as [p|]; [|done].
  bind_inv H s Hs. destruct (f s) as [fh|]; [|done].
  bind_inv H n Hn.
  destruct (negb (Size n =? 0)).
  - destruct (key s) as [k|]; [|done].
    destruct (EnclaveOpen k) as [kb [err|]]; [by injection H as <- _|].
    destruct (Decrypt _ _ _) as [plaintext [err|]]; [by injection H as <- _|].
    destruct (size <=? Size n); by eapply reseal_wf.
  - destruct (size =? 0); [by injection H as <- _|].
    destruct (size <=? Size n); by eapply reseal_wf.
Qed.

Lemma reachable_wf fs : reachable fs → wf fs.
Proof.
  induction 1 as [ |fs name flag perm fs' r _ IH H
                   |En De Se Eo fs name size newKey fs' e _ IH H
                   |fs name perm fs' e _ IH H
                   |fs name perm fs' e _ IH H
                   |fuel fs name fs' e _ IH H
                   |fs oldname newname fs' e _ IH H].
  - apply wf_NewFS.
  - by eapply OpenFile_wf.
  - by eapply Truncate_wf.
  - destruct (Mkdir_total fs name perm IH) as (fs1 & e1 & H1 & Hwf1).
    rewrite H in H1. by injection H1 as -> _.
  - rewrite (MkdirAll_unfold _ _ _ IH) in H.
    destruct (MkdirAll_loop_total fs perm "" (SplitSlash (Abs (cwd fs) name)) IH)
      as (fs1 & H1 & Hwf1).
    rewrite H1 in H. by injection H as <- _.
  - by eapply RemoveAll_wf.
  - destruct (Symlink_total fs oldname newname IH) as (fs1 & e1 & H1 & Hwf1).
    rewrite H in H1. by injection H1 as -> _.
Qed.

(** ** Concrete states *)

Lemma reachable_file_fs : reachable file_fs.
Proof.
  eapply (reach_OpenFile NewFS "/f" (Z.lor O_CREATE O_RDWR) 420);
    [apply reach_NewFS|].
  vm_compute. reflexivity.
Qed.

Lemma reachable_link_fs : reachable link_fs.
Proof.
  eapply (reach_Symlink file_fs "/f" "/a"); [apply reachable_file_fs|].
  vm_compute. reflexivity.
Qed.

Lemma reachable_cycle_fs : reachable cycle_fs.
Proof.
  eapply (reach_Symlink link_fs "/a" "/a"); [apply reachable_link_fs|].
  vm_compute. reflexivity.
Qed.

Lemma Symlink_stores_target_witness :
  ∃ fs' on n pn',
    Symlink file_fs "/f" "/a" = Ret (fs', None)
    ∧ inodes file_fs !! 1%nat = Some on
    ∧ symlinks fs' = <[(ino file_fs + 1) `mod` 2 ^ 64 := "/f"]> (symlinks file_fs)
    ∧ symlink_target fs' ((ino file_fs + 1) `mod` 2 ^ 64) = "/f"
    ∧ inodes fs' !! length (inodes file_fs) = Some n
    ∧ Ino n = (ino file_fs + 1) `mod` 2 ^ 64
    ∧ Mode n = Z.lor (Mode on) ModeSymlink
    ∧ inodes fs' !! 0%nat = Some pn'
    ∧ find "a" (inode.Dir pn') = Some (length (inodes file_fs)).
Proof.
  eapply (Symlink_stores_target file_fs "/f" "/a" (SyscallErrno ENOENT)
            "/" "a" 0%nat _ (inl 1%nat));
    [apply reachable_wf, reachable_file_fs | vm_compute; reflexivity ..].
Defined.

(** ** Readlink *)





(** ** Stat and cyclic symlinks *)

(** A larger bound does not change a result that a smaller bound gave. *)
Lemma fileStat_more_fuel hops fs cwd name o :
  fileStat hops fs cwd name = o → o ≠ NoFuel →
  fileStat (S hops) fs cwd name = o.
Proof.
  revert cwd name o. induction hops as [|hops IH]; intros cwd name o H Ho.
  { simpl in H. congruence. }
  change (fileStat (S (S hops)) fs cwd name) with
    (let name := Abs cwd name in
     let name := if String.eqb name "/" then name else TrimLeftSlash name in
     r ← Resolve (inodes fs) (root fs) (root fs) name;
     match r with
     | inr err => Ret (inr (PathError "stat" name err))
     | inl node =>
         n ← deref (inodes fs) node;
         if Z.land (Mode n) ModeSymlink =? 0 then Ret (inl node)
         else fileStat (S hops) fs (vfspath.Dir name) (symlink_target fs (Ino n))
     end).
  simpl in H. cbv zeta.
  destruct (Resolve _ _ _ _) as [[node|err]| | |]; try done. simpl in *.
  destruct (deref _ _) as [n| | |]; try done. simpl in *.
  destruct (_ =? 0); [done|]. by apply IH.
Qed.

(** One call of [fileStat] that lands on a symlink. *)
Lemma fileStat_follow hops fs cwd name name' node n :
  (let a := Abs cwd name in
   if String.eqb a "/" then a else TrimLeftSlash a) = name' →
  Resolve (inodes fs) (root fs) (root fs) name' = Ret (inl node) →
  inodes fs !! node = Some n →
  Z.land (Mode n) ModeSymlink ≠ 0 →
  fileStat (S hops) fs cwd name
  = fileStat hops fs (vfspath.Dir name') (symlink_target fs (Ino n)).
Proof.
  intros Hname Hr Hn Hm. simpl. cbv zeta in Hname. rewrite Hname.
  rewrite (bind_Ret _ _ _ Hr), (bind_Ret _ _ _ (deref_Some _ _ _ Hn)).
  apply Z.eqb_neq in Hm. by rewrite Hm.
Qed.

(** C2. The claim fails on the code. [cycle_fs] is built from [NewFS]
    by three successful calls and holds a symlink [/a] whose target is
    [/a]. Whatever the bound on the number of calls of [fileStat],
    [Stat("/a")] has not returned when the bound is reached: it neither
    yields an inode nor fails [LOOP] or with a resolution error. *)
Theorem Stat_symlink_cycle_never_returns :
  cyclic_fs = Ret cycle_fs
  ∧ reachable cycle_fs
  ∧ symlink_target cycle_fs 3 = "/a"
  ∧ ∀ hops, Stat hops cycle_fs "/a" = NoFuel.
Proof.
  split; [vm_compute; reflexivity|].
  split; [apply reachable_cycle_fs|].
  split; [vm_compute; reflexivity|].
  assert (∀ hops, fileStat hops cycle_fs "." "/a" = NoFuel) as Hloop.
  { induction hops as [|hops IH]; [done|].
    erewrite (fileStat_follow hops cycle_fs "." "/a" "a" 2%nat);
      [|vm_compute; reflexivity..|vm_compute; discriminate].
    replace (vfspath.Dir "a") with "." by (vm_compute; reflexivity).
    replace (symlink_target cycle_fs (Ino _)) with "/a" by (vm_compute; reflexivity).
    exact IH. }
  intros [|hops]; [done|]. unfold Stat. simpl String.eqb. cbv iota.
  erewrite (fileStat_follow hops cycle_fs (cwd cycle_fs) "/a" "a" 2%nat);
    [|vm_compute; reflexivity..|vm_compute; discriminate].
  replace (vfspath.Dir "a") with "." by (vm_compute; reflexivity).
  replace (symlink_target cycle_fs (Ino _)) with "/a" by (vm_compute; reflexivity).
  by rewrite Hloop.
Qed.

(** Where no symlink is met, one call is enough. *)
Example Stat_regular_file :
  Stat 1 file_fs "/f" = Ret (inl (mkFileInfo "f" 1%nat))
  ∧ Stat 2 link_fs "/a" = Ret (inl (mkFileInfo "a" 1%nat)).
Proof. split; vm_compute; reflexivity. Qed.

(** ** RemoveAll *)

Lemma unlink_entries_total below n N entries :
  (∀ h c, closed h → length h = N → (n < c < N)%nat →
     ∃ h', below h c = Ret h' ∧ kept h h') →
  ∀ h, closed h → length h = N → (n < N)%nat →
    (∀ k c, (k, c) ∈ entries → structural k = false → (n < c < N)%nat) →
    ∃ h', unlink_entries below h n entries = Ret h' ∧ kept h h'.
Proof.
  intros Hbelow. induction entries as [|[k c] entries IH]; intros h Hc HN Hn Hin.
  - exists h. split; [done|by apply kept_refl].
  - simpl. destruct (structural k) eqn:Hk.
    { apply IH; [done..|]. intros k' c' Hin'. apply Hin. by right. }
    destruct (Hbelow h c Hc HN) as (h1 & H1 & L1 & C1 & E1).
    { apply (Hin k); [left|done]. }
    rewrite (bind_Ret _ _ _ H1).
    destruct (Unlink_total h1 n k C1 ltac:(lia)) as (h2 & e & Hu & L2 & C2 & E2).
    rewrite (bind_Ret _ _ _ Hu). simpl.
    destruct (IH h2 C2 ltac:(lia) Hn) as (h3 & H3 & K3).
    { intros k' c' Hin' Hs. apply (Hin k'); [by right|done]. }
    exists h3. split; [done|].
    eapply kept_trans; [by split|]. eapply kept_trans; [by split|done].
Qed.

(** In a closed store [UnlinkAll] ends: the entries lead to objects
    allocated later, so a bound above the size of the store is enough. *)
Lemma UnlinkAll_total fuel h n :
  closed h → (n < length h)%nat → (length h - n < fuel)%nat →
  ∃ h', UnlinkAll fuel h n = Ret h' ∧ kept h h'.
Proof.
  revert h n. induction fuel as [|fuel IH]; intros h n Hc Hn Hf; [lia|].
  destruct (deref_lt h n Hn) as (dn & Hdn & Hd).
  simpl. rewrite (bind_Ret _ _ _ Hd).
  apply (unlink_entries_total _ n (length h)); [|done..|].
  - intros h0 c Hc0 HN Hlt. apply IH; [done|lia|lia].
  - intros k c Hin Hs. destruct (Hc _ _ _ _ Hdn Hin) as [? Ho].
    specialize (Ho Hs). lia.
Qed.

(** *** What [UnlinkAll] leaves *)

Lemma count_lookup_ne delta k h c l : l ≠ c → count delta k h c !! l = h !! l.
Proof.
  intros Hne. unfold count. destruct (structural k); [done|].
  destruct (h !! c); [|done]. by rewrite list_lookup_insert_ne.
Qed.

Lemma find_app_structural k pre c rest :
  Forall (λ e, structural e.1 = true) pre → structural k = false →
  find k (pre ++ (k, c) :: rest) = Some c
  ∧ dir_remove k (pre ++ (k, c) :: rest) = (pre ++ rest)%list.
Proof.
  intros Hpre Hk. induction Hpre as [|[k' c'] pre Hk' _ IH]; simpl.
  - by rewrite String.eqb_refl.
  - simpl in Hk'. destruct (String.eqb k' k) eqn:E.
    + apply String.eqb_eq in E. congruence.
    + destruct IH as [-> ->]. done.
Qed.

(** [Unlink] of a name that is not structural, found behind structural
    entries only: the entry goes, and nothing before the directory in the
    store changes. *)
Lemma Unlink_first h n dn k c pre rest :
  closed h → h !! n = Some dn →
  inode.Dir dn = (pre ++ (k, c) :: rest)%list →
  Forall (λ e, structural e.1 = true) pre → structural k = false →
  ∃ h' dn',
    Unlink h n k = Ret (h', None)
    ∧ h' !! n = Some dn'
    ∧ inode.Dir dn' = (pre ++ rest)%list
    ∧ ∀ l, (l < n)%nat → h' !! l = h !! l.
Proof.
  intros Hc Hn Hd Hpre Hk.
  destruct (find_app_structural k pre c rest Hpre Hk) as [Hf Hr].
  unfold Unlink. rewrite (bind_Ret _ _ _ (deref_Some _ _ _ Hn)), Hd, Hf, Hr.
  assert (n < c)%nat as Hnc.
  { destruct (Hc n dn k c Hn) as [_ Ho]; [|by apply Ho].
    rewrite Hd. apply elem_of_app. right. left. }
  destruct (count_lookup_fwd (-1) k (<[n := with_Dir dn (pre ++ rest)%list]> h) c n
              (with_Dir dn (pre ++ rest)%list)) as (dn' & Hdn' & _ & _ & _ & HD).
  { apply list_lookup_insert_eq. by eapply lookup_lt_Some. }
  exists (count (-1) k (<[n := with_Dir dn (pre ++ rest)%list]> h) c), dn'.
  split; [done|]. split; [done|]. split; [done|].
  intros l Hl. rewrite count_lookup_ne by lia. by rewrite list_lookup_insert_ne by lia.
Qed.

Lemma unlink_entries_leaves below n :
  (∀ h c h', closed h → (n < c < length h)%nat → below h c = Ret h' →
     kept h h' ∧ ∀ l, (l < c)%nat → h' !! l = h !! l) →
  ∀ entries pre h dn h',
    closed h → h !! n = Some dn →
    inode.Dir dn = (pre ++ entries)%list →
    Forall (λ e, structural e.1 = true) pre →
    unlink_entries below h n entries = Ret h' →
    (∃ dn', h' !! n = Some dn'
            ∧ inode.Dir dn'
              = (pre ++ filter (λ e, structural e.1 = true) entries)%list)
    ∧ ∀ l, (l < n)%nat → h' !! l = h !! l.
Proof.
  intros Hbelow. induction entries as [|[k c] entries IH];
    intros pre h dn h' Hc Hn Hd Hpre H.
  - injection H as <-. split; [|done]. exists dn. split; [done|].
    by rewrite Hd.
  - simpl in H. rewrite filter_cons. simpl.
    destruct (structural k) eqn:Hk.
    + destruct (IH (pre ++ [(k, c)])%list h dn h' Hc Hn) as [(dn' & Hn' & Hd') Hfr];
        [by rewrite <- app_assoc| |done|].
      { apply Forall_app. split; [done|]. by constructor. }
      split; [|done]. exists dn'. split; [done|].
      rewrite Hd', <- app_assoc. simpl.
      by destruct (decide (true = true)).
    + bind_inv H h1 H1. bind_inv H u Hu.
      assert (n < c < length h)%nat as Hnc.
      { destruct (Hc n dn k c Hn) as [? Ho].
        - rewrite Hd. apply elem_of_app. right. left.
        - specialize (Ho Hk). lia. }
      destruct (Hbelow h c h1 Hc Hnc H1) as [(L1 & C1 & E1) F1].
      assert (h1 !! n = Some dn) as Hn1 by (rewrite F1; [done|lia]).
      destruct (Unlink_first h1 n dn k c pre entries C1 Hn1 Hd Hpre Hk)
        as (h2 & dn2 & Hu2 & Hn2 & Hd2 & F2).
      rewrite Hu2 in Hu. injection Hu as <-. simpl in H.
      assert (closed h2) as C2.
      { destruct (Unlink_total h1 n k C1) as (h2' & e' & Hu' & (_ & C2 & _)).
        - by eapply lookup_lt_Some.
        - rewrite Hu2 in Hu'. by injection Hu' as <- _. }
      destruct (IH pre h2 dn2 h' C2 Hn2 Hd2 Hpre H) as [(dn' & Hn' & Hd') Hfr].
      split.
      * exists dn'. split; [done|]. rewrite Hd'.
        by destruct (decide (false = true)).
      * intros l Hl. rewrite Hfr, F2, F1 by lia. done.
Qed.

(** After [UnlinkAll] the directory holds its structural entries only,
    and nothing allocated before it has changed. *)
Lemma UnlinkAll_leaves fuel h n h' :
  closed h → (n < length h)%nat → UnlinkAll fuel h n = Ret h' →
  kept h h'
  ∧ (∃ dn dn', h !! n = Some dn ∧ h' !! n = Some dn'
               ∧ inode.Dir dn' = filter (λ e, structural e.1 = true) (inode.Dir dn))
  ∧ ∀ l, (l < n)%nat → h' !! l = h !! l.
Proof.
  revert h n h'. induction fuel as [|fuel IH]; intros h n h' Hc Hn H; [done|].
  split; [by eapply UnlinkAll_kept|].
  simpl in H. bind_inv H dn Hd. apply deref_Ret_inv in Hd.
  destruct (unlink_entries_leaves (UnlinkAll fuel) n) with
    (entries := inode.Dir dn) (pre := @nil (string * nat)) (h := h) (dn := dn) (h' := h')
    as [(dn' & Hn' & Hd') Hfr]; try done.
  - intros h0 c h0' Hc0 Hlt H0.
    destruct (IH h0 c h0' Hc0 ltac:(lia) H0) as (K & _ & F).
    split; [done|]. intros l Hl. apply F. lia.
  - split; [|done]. by exists dn, dn'.
Qed.

(** C4, as stated, fails: on the empty filesystem [/nope] does not
    resolve, and [RemoveAll("/nope")] returns an error, not [nil]. *)
Lemma RemoveAll_missing_path_is_an_error :
  Resolve (inodes NewFS) (root NewFS) (root NewFS) "/nope"
    = Ret (inr (SyscallErrno ENOENT))
  ∧ RemoveAll 8 NewFS "/nope"
    = Ret (NewFS, Some (PathError "remove" "/nope" (SyscallErrno ENOENT)))
  ∧ kind_of (PathError "remove" "/nope" (SyscallErrno ENOENT)) = Some NO_SUCH_ENTRY.
Proof. repeat split; vm_compute; reflexivity. Qed.

(** C4, amended. In a well-formed state, with the resolution of the
    path from the directory it selects as [r]:
    - if the path does not resolve, [RemoveAll] returns the error of the
      resolution in a [PathError] and leaves the state unchanged;
    - if it resolves to [child] and the parent directory resolves to
      [parent], then [RemoveAll], given a bound above the size of the
      store, returns: it first unlinks all that is below [child], in
      post-order ([UnlinkAll]), which leaves [child] with its structural
      entries only, then unlinks the last name of the path from
      [parent], and what that unlink gives is what it returns. *)
Theorem RemoveAll_result fuel fs name r :
  wf fs →
  (length (inodes fs) < fuel)%nat →
  Resolve (inodes fs) (root fs) (if IsAbs name then root fs else dir fs) name
    = Ret r →
  match r with
  | inr err =>
      RemoveAll fuel fs name = Ret (fs, Some (PathError "remove" name err))
  | inl child =>
      let abs := if IsAbs name then name else Join (cwd fs) name in
      ∀ parent,
        (if String.eqb (Clean (Split abs).1) "/" then Ret (inl (root fs))
         else Resolve (inodes fs) (root fs) (root fs)
                (TrimLeftSlash (Clean (Split abs).1))) = Ret (inl parent) →
        ∃ h1 h2 e dn dn',
          UnlinkAll fuel (inodes fs) child = Ret h1
          ∧ inodes fs !! child = Some dn
          ∧ h1 !! child = Some dn'
          ∧ inode.Dir dn' = filter (λ e, structural e.1 = true) (inode.Dir dn)
          ∧ Unlink h1 parent (Split abs).2 = Ret (h2, e)
          ∧ RemoveAll fuel fs name = Ret (set_inodes fs h2, e)
          ∧ wf (set_inodes fs h2)
  end.
Proof.
  intros Hwf Hfuel Hr. unfold RemoveAll. rewrite (bind_Ret _ _ _ Hr).
  destruct r as [child|err]; [|done].
  cbv zeta. intros parent Hp.
  destruct (Split _) as [d filename] eqn:Hsp. simpl in *.
  rewrite (bind_Ret _ _ _ Hp).
  pose proof (wf_Resolve_inv _ _ _ _ _ Hwf (wf_wd _ _ _ Hwf) Hr) as Hchild.
  destruct (parent_total _ fs (Clean d) Hwf) as (rp & Hrp & Hres).
  rewrite Hp in Hrp. injection Hrp as <-. simpl in Hres.
  destruct (UnlinkAll_total fuel (inodes fs) child (wf_closed _ _ Hwf) Hchild)
    as (h1 & H1 & L1 & C1 & E1); [lia|].
  destruct (Unlink_total h1 parent filename C1 ltac:(lia))
    as (h2 & e & Hu & L2 & C2 & E2).
  destruct (UnlinkAll_leaves _ _ _ _ (wf_closed _ _ Hwf) Hchild H1)
    as (_ & (dn & dn' & Hdn & Hdn' & HD) & _).
  exists h1, h2, e, dn, dn'. rewrite (bind_Ret _ _ _ H1), (bind_Ret _ _ _ Hu).
  do 6 (split; [done|]).
  eapply wf_step; [exact Hwf|..]; simpl; try done.
  - apply Hwf.
  - by eapply extends_trans.
Qed.

Lemma reachable_dirs_fs : reachable dirs_fs.
Proof.
  eapply (reach_MkdirAll NewFS "/a/b" 511); [apply reach_NewFS|].
  vm_compute. reflexivity.
Qed.

Lemma RemoveAll_result_witness :
  ∃ h1 h2 e dn dn',
    UnlinkAll 8 (inodes dirs_fs) 1 = Ret h1
    ∧ inodes dirs_fs !! 1%nat = Some dn
    ∧ h1 !! 1%nat = Some dn'
    ∧ inode.Dir dn' = filter (λ e, structural e.1 = true) (inode.Dir dn)
    ∧ Unlink h1 0 "a" = Ret (h2, e)
    ∧ RemoveAll 8 dirs_fs "/a" = Ret (set_inodes dirs_fs h2, e)
    ∧ wf (set_inodes dirs_fs h2).
Proof.
  apply (RemoveAll_result 8 dirs_fs "/a" (inl 1%nat)
           (reachable_wf _ reachable_dirs_fs));
    [vm_compute; lia | vm_compute; reflexivity ..].
Defined.

(** After [RemoveAll("/a")] neither [/a] nor what was below it is
    linked: [b] is gone from [/a], and [a] from the root. *)
Example RemoveAll_unlinks_subtree :
  ∃ fs' r a,
    RemoveAll 8 dirs_fs "/a" = Ret (fs', None)
    ∧ inodes fs' !! 0%nat = Some r ∧ inode.Dir r = [(".", 0%nat); ("..", 0%nat)]
    ∧ inodes fs' !! 1%nat = Some a ∧ inode.Dir a = [(".", 1%nat); ("..", 0%nat)]
    ∧ Resolve (inodes fs') (root fs') (root fs') "/a"
      = Ret (inr (SyscallErrno ENOENT)).
Proof.
  do 3 eexists.
  split; [vm_compute; reflexivity|].
  split; [vm_compute; reflexivity|].
  split; [vm_compute; reflexivity|].
  split; [vm_compute; reflexivity|].
  split; vm_compute; reflexivity.
Qed.

(** ** Walk *)

(** *** The order on names *)

Lemma Ascii_compare_refl a : Ascii.compare a a = Eq.
Proof. unfold Ascii.compare. apply N.compare_refl. Qed.

Lemma Ascii_compare_lt_trans a b c :
  Ascii.compare a b = Lt → Ascii.compare b c = Lt → Ascii.compare a c = Lt.
Proof.
  unfold Ascii.compare. rewrite !N.compare_lt_iff. apply N.lt_trans.
Qed.

Lemma String_compare_lt_trans s1 s2 s3 :
  String.compare s1 s2 = Lt → String.compare s2 s3 = Lt →
  String.compare s1 s3 = Lt.
Proof.
  revert s2 s3. induction s1 as [|a s1 IH]; intros [|b s2] [|c s3]; simpl; try done.
  destruct (Ascii.compare a b) eqn:Eab; try done;
    destruct (Ascii.compare b c) eqn:Ebc; try done; intros H1 H2.
  - apply Ascii.compare_eq_iff in Eab, Ebc. subst.
    rewrite Ascii_compare_refl. by eapply IH.
  - apply Ascii.compare_eq_iff in Eab. subst. by rewrite Ebc.
  - apply Ascii.compare_eq_iff in Ebc. subst. by rewrite Eab.
  - by rewrite (Ascii_compare_lt_trans _ _ _ Eab Ebc).
Qed.

Lemma name_le_trans x y z : name_le x y → name_le y z → name_le x z.
Proof.
  unfold name_le, String.leb. intros Hxy Hyz.
  destruct (String.compare x y) eqn:Exy; try done.
  { apply String.compare_eq_iff in Exy. by subst. }
  destruct (String.compare y z) eqn:Eyz; try done.
  { apply String.compare_eq_iff in Eyz. subst. by rewrite Exy. }
  by rewrite (String_compare_lt_trans _ _ _ Exy Eyz).
Qed.

Lemma name_le_total x y : name_le x y ∨ name_le y x.
Proof. apply String.leb_total. Qed.

Lemma name_le_antisym x y : name_le x y → name_le y x → x = y.
Proof. apply String.leb_antisym. Qed.

(** *** The two sorts *)

Lemma insert_desc_perm x l : insert_desc x l ≡ₚ x :: l.
Proof.
  induction l as [|y l IH]; simpl; [done|].
  destruct (String.leb y x); [done|]. rewrite IH. apply Permutation_swap.
Qed.

Lemma insert_asc_perm x l : insert_asc x l ≡ₚ x :: l.
Proof.
  induction l as [|y l IH]; simpl; [done|].
  destruct (String.leb x y); [done|]. rewrite IH. apply Permutation_swap.
Qed.

Lemma sort_Reverse_perm l : sort_Reverse l ≡ₚ l.
Proof.
  induction l as [|x l IH]; simpl; [done|].
  unfold sort_Reverse in *. simpl. by rewrite insert_desc_perm, IH.
Qed.

Lemma sort_asc_perm l : sort_asc l ≡ₚ l.
Proof.
  induction l as [|x l IH]; simpl; [done|].
  unfold sort_asc in *. simpl. by rewrite insert_asc_perm, IH.
Qed.

Lemma insert_desc_sorted x l :
  StronglySorted (flip name_le) l → StronglySorted (flip name_le) (insert_desc x l).
Proof.
  induction 1 as [|y l Hl IH Hy]; simpl.
  { repeat constructor. }
  destruct (String.leb y x) eqn:E.
  - constructor; [by constructor|]. constructor; [done|].
    eapply Forall_impl; [exact Hy|]. intros z Hz. unfold flip in *.
    by eapply name_le_trans.
  - constructor; [done|]. rewrite insert_desc_perm. constructor; [|done].
    unfold flip. destruct (name_le_total x y) as [H|H]; [done|].
    unfold name_le in H. congruence.
Qed.

Lemma insert_asc_sorted x l :
  StronglySorted name_le l → StronglySorted name_le (insert_asc x l).
Proof.
  induction 1 as [|y l Hl IH Hy]; simpl.
  { repeat constructor. }
  destruct (String.leb x y) eqn:E.
  - constructor; [by constructor|]. constructor; [done|].
    eapply Forall_impl; [exact Hy|]. intros z Hz. by eapply name_le_trans.
  - constructor; [done|]. rewrite insert_asc_perm. constructor; [|done].
    destruct (name_le_total x y) as [H|H]; [|done].
    unfold name_le in H. congruence.
Qed.

Lemma sort_Reverse_sorted l : StronglySorted (flip name_le) (sort_Reverse l).
Proof.
  induction l as [|x l IH]; [constructor|]. by apply insert_desc_sorted.
Qed.

Lemma sort_asc_sorted l : StronglySorted name_le (sort_asc l).
Proof.
  induction l as [|x l IH]; [constructor|]. by apply insert_asc_sorted.
Qed.

Lemma StronglySorted_filter {A} (R : relation A) (P : A → Prop)
    `{∀ x, Decision (P x)} l :
  StronglySorted R l → StronglySorted R (filter P l).
Proof.
  induction 1 as [|x l Hl IH Hx]; [constructor|].
  rewrite filter_cons. destruct (decide (P x)); [|done].
  constructor; [done|]. rewrite Forall_forall in Hx. apply Forall_forall.
  intros y [_ Hy]%list_elem_of_filter. by apply Hx.
Qed.

Lemma StronglySorted_rev {A} (R : relation A) l :
  StronglySorted (flip R) l → StronglySorted R (rev l).
Proof.
  induction 1 as [|x l Hl IH Hx]; [constructor|]. simpl.
  apply StronglySorted_app_2; [|done|repeat constructor].
  intros y z Hy ->%list_elem_of_singleton.
  rewrite Forall_forall in Hx. apply Hx.
  apply list_elem_of_In, in_rev. by apply list_elem_of_In.
Qed.

(** Descending order, read from the end, is ascending order: what the
    stack gives back after the children were pushed in descending
    order. *)
Lemma rev_filter_sort_Reverse (P : string → Prop) `{∀ x, Decision (P x)} names :
  rev (filter P (sort_Reverse names)) = sort_asc (filter P names).
Proof.
  apply (StronglySorted_unique_strong name_le).
  - intros x y _ _. apply name_le_antisym.
  - apply StronglySorted_rev, StronglySorted_filter, sort_Reverse_sorted.
  - apply sort_asc_sorted.
  - rewrite <- Permutation_rev, sort_asc_perm. by rewrite sort_Reverse_perm.
Qed.

(** *** The stack against the recursion *)

Lemma Walk_push_spec stack path names :
  Walk_push stack path names
  = (rev (map (Join path) (filter (λ p, structural p = false) names)) ++ stack)%list.
Proof.
  unfold Walk_push. revert stack.
  induction names as [|p names IH]; intros stack; [done|].
  simpl. rewrite IH, filter_cons.
  replace (String.eqb p ".." || String.eqb p ".") with (structural p)
    by (unfold structural; apply orb_comm).
  destruct (decide (structural p = false)) as [E|E].
  - rewrite E. simpl. unfold push. by rewrite <- app_assoc.
  - by destruct (structural p).
Qed.

Lemma Walk_push_children stack path names :
  Walk_push stack path (sort_Reverse names)
  = (children_asc path names ++ stack)%list.
Proof.
  rewrite Walk_push_spec. unfold children_asc.
  by rewrite <- map_rev, rev_filter_sort_Reverse.
Qed.

Lemma Walk_dir_read_dir fs path stack :
  Walk_dir fs path stack
  = (d ← read_dir fs path;
     Ret (d.1, match d.2 with
               | inl names => inl (children_asc path names ++ stack)%list
               | inr err => inr err
               end)).
Proof.
  unfold Walk_dir, read_dir.
  destruct (Open fs path) as [[fs1 [file [err|]]]| | |]; try done. simpl.
  destruct (Readdirnames fs1 file) as [[names [err|]]| | |]; try done. simpl.
  by rewrite Walk_push_children.
Qed.

Section WalkRefinement.
Context {V : Type} (fn : V → string → FileInfo → V * option error).
Variable hops : nat.

Abbreviation result := (outcome (FileSystem * V * option error)).

Lemma Walk_loop_step k fs v p rest :
  Walk_loop V fn hops (S k) fs v (p :: rest)
  = visit_then fn hops fs v p (λ fs' v' cs, Walk_loop V fn hops k fs' v' (cs ++ rest)%list).
Proof.
  unfold visit_then. simpl.
  destruct (Stat hops fs p) as [[info|err]| | |]; try done. simpl.
  destruct (FileInfo_IsDir fs info) as [[|]| | |]; try done; simpl.
  rewrite Walk_dir_read_dir.
  destruct (read_dir fs p) as [[fs1 [names|err]]| | |]; done.
Qed.

Lemma preorder_step d fs v p :
  preorder V fn hops (S d) fs v p
  = visit_then fn hops fs v p (visit_each V (preorder V fn hops d)).
Proof. done. Qed.

(** If what follows the visit agrees, the visits agree. *)
Lemma visit_then_ext fs v p next1 next2 :
  (∀ fs' v' cs, next1 fs' v' cs = next2 fs' v' cs) →
  visit_then fn hops fs v p next1 = visit_then fn hops fs v p next2.
Proof.
  intros Hn. unfold visit_then.
  destruct (Stat hops fs p) as [[info|err]| | |]; try done. simpl.
  destruct (FileInfo_IsDir fs info) as [isdir| | |]; try done. simpl.
  destruct (if isdir then _ else _) as [[fs1 [names|err]]| | |]; try done. simpl.
  destruct (fn v p info) as [v' [e|]]; [done|]. apply Hn.
Qed.

Lemma and_then_stops (o : result) k : stops o → and_then o k = o.
Proof. by destruct o as [[[fs' v'] [e|]]| | |]. Qed.

Lemma and_then_Ret (o : result) : and_then o (λ fs' v', Ret (fs', v', None)) = o.
Proof. by destruct o as [[[fs' v'] [e|]]| | |]. Qed.

Lemma and_then_NoFuel (o : result) k : and_then o k ≠ NoFuel → o ≠ NoFuel.
Proof. by destruct o. Qed.

Lemma and_then_assoc (o : result) k1 k2 :
  and_then (and_then o k1) k2 = and_then o (λ fs' v', and_then (k1 fs' v') k2).
Proof. by destruct o as [[[fs' v'] [e|]]| | |]. Qed.

(** A visit ends the walk by itself, or runs its continuation once. *)
Lemma visit_then_cases fs v p :
  (∃ o, stops o ∧ ∀ next, visit_then fn hops fs v p next = o)
  ∨ (∃ fs' v' cs, ∀ next, visit_then fn hops fs v p next = next fs' v' cs).
Proof.
  unfold visit_then.
  destruct (Stat hops fs p) as [[info|err]| | |];
    try (left; eexists; split; [|intros next; simpl; reflexivity]; done). simpl.
  destruct (FileInfo_IsDir fs info) as [isdir| | |];
    try (left; eexists; split; [|intros next; simpl; reflexivity]; done). simpl.
  destruct (if isdir then _ else _) as [[fs1 [names|err]]| | |];
    try (left; eexists; split; [|intros next; simpl; reflexivity]; done). simpl.
  destruct (fn v p info) as [v' [e|]];
    [left; eexists; split; [|intros next; simpl; reflexivity]; done|].
  right. by exists fs1, v', (children_asc p names).
Qed.

Lemma visit_each_cons visit fs v p rest :
  visit_each V visit fs v (p :: rest)
  = and_then (visit fs v p) (λ fs' v', visit_each V visit fs' v' rest).
Proof. simpl. by destruct (visit fs v p) as [[[fs' v'] [e|]]| | |]. Qed.

Lemma visit_each_single visit fs v p :
  visit_each V visit fs v [p] = visit fs v p.
Proof. rewrite visit_each_cons. apply and_then_Ret. Qed.

Lemma visit_each_app visit fs v l1 l2 :
  visit_each V visit fs v (l1 ++ l2)
  = and_then (visit_each V visit fs v l1)
             (λ fs' v', visit_each V visit fs' v' l2).
Proof.
  revert fs v. induction l1 as [|p l1 IH]; intros fs v; [done|].
  change ((p :: l1) ++ l2)%list with (p :: (l1 ++ l2))%list.
  rewrite !visit_each_cons, and_then_assoc.
  destruct (visit fs v p) as [[[fs' v'] [e|]]| | |]; try done. simpl. apply IH.
Qed.

Lemma visit_each_mono visit1 visit2 :
  (∀ fs v p o, visit1 fs v p = o → o ≠ NoFuel → visit2 fs v p = o) →
  ∀ paths fs v o,
    visit_each V visit1 fs v paths = o → o ≠ NoFuel →
    visit_each V visit2 fs v paths = o.
Proof.
  intros Hv. induction paths as [|p paths IH]; intros fs v o H Ho; [done|].
  rewrite visit_each_cons in *.
  assert (visit1 fs v p ≠ NoFuel) as H1.
  { apply (and_then_NoFuel _ (λ fs' v', visit_each V visit1 fs' v' paths)).
    by rewrite H. }
  rewrite (Hv _ _ _ _ eq_refl H1).
  destruct (visit1 fs v p) as [[[fs' v'] [e|]]| | |]; try done. simpl in *.
  by apply IH.
Qed.

Lemma preorder_mono d fs v p o :
  preorder V fn hops d fs v p = o → o ≠ NoFuel →
  preorder V fn hops (S d) fs v p = o.
Proof.
  revert fs v p o. induction d as [|d IH]; intros fs v p o H Ho.
  { simpl in H. congruence. }
  rewrite preorder_step in *.
  destruct (visit_then_cases fs v p) as [(o0 & _ & Hend)|(fs' & v' & cs & Hrun)].
  - by rewrite Hend in *.
  - rewrite Hrun in *. eapply visit_each_mono; [|exact H|done]. apply IH.
Qed.

(** More iterations do not change a result that fewer gave. *)
Lemma Walk_loop_more_fuel fuel :
  ∀ paths fs v o,
    Walk_loop V fn hops fuel fs v paths = o → o ≠ NoFuel →
    Walk_loop V fn hops (S fuel) fs v paths = o.
Proof.
  induction fuel as [|fuel IH]; intros [|p rest] fs v o H Ho.
  - exact H.
  - simpl in H. congruence.
  - exact H.
  - rewrite Walk_loop_step in H. rewrite Walk_loop_step.
    destruct (visit_then_cases fs v p)
      as [(o0 & _ & Hend)|(fs' & v' & cs & Hrun)].
    + rewrite Hend in H. by rewrite Hend.
    + rewrite Hrun in H. rewrite Hrun. by apply IH.
Qed.

(** From the recursion to the loop: [n] iterations do the visits of
    [paths] and what is below them, and leave the rest of the stack. *)
Lemma loop_of_preorder d :
  ∀ paths fs v o,
    visit_each V (preorder V fn hops d) fs v paths = o → o ≠ NoFuel →
    ∃ n, ∀ m rest,
      Walk_loop V fn hops (n + m) fs v (paths ++ rest)
      = and_then o (λ fs' v', Walk_loop V fn hops m fs' v' rest).
Proof.
  induction d as [|d IHd].
  - (* no call of [preorder 0] returns *)
    intros [|p paths] fs v o H Ho.
    + exists O. intros m rest. by rewrite <- H.
    + simpl in H. congruence.
  - induction paths as [|p paths IHp]; intros fs v o H Ho.
    + exists O. intros m rest. by rewrite <- H.
    + rewrite visit_each_cons in H.
      pose proof Ho as Ho1. rewrite <- H in Ho1. apply and_then_NoFuel in Ho1.
      rewrite preorder_step in H, Ho1.
      destruct (visit_then_cases fs v p)
        as [(o0 & Hs & Hend)|(fs' & v' & cs & Hrun)].
      * rewrite Hend, (and_then_stops _ _ Hs) in H. subst o0.
        exists 1%nat. intros m rest. simpl app. change (1 + m)%nat with (S m).
        by rewrite Walk_loop_step, Hend, and_then_stops.
      * rewrite Hrun in H, Ho1.
        destruct (IHd cs fs' v' _ eq_refl Ho1) as (n1 & Hn1).
        destruct (visit_each V (preorder V fn hops d) fs' v' cs)
          as [[[fs2 v2] [e|]]| | |] eqn:E1; simpl in H; try done.
        -- subst o. exists (S n1). intros m rest.
           simpl app. change (S n1 + m)%nat with (S (n1 + m)).
           rewrite Walk_loop_step, Hrun. by rewrite Hn1.
        -- destruct (IHp fs2 v2 o H Ho) as (n2 & Hn2).
           exists (S (n1 + n2)). intros m rest.
           simpl app. change (S (n1 + n2) + m)%nat with (S (n1 + n2 + m)).
           rewrite Walk_loop_step, Hrun.
           replace (n1 + n2 + m)%nat with (n1 + (n2 + m))%nat by lia.
           rewrite Hn1. simpl. apply Hn2.
        -- subst o. exists (S n1). intros m rest.
           simpl app. change (S n1 + m)%nat with (S (n1 + m)).
           rewrite Walk_loop_step, Hrun. by rewrite Hn1.
        -- subst o. exists (S n1). intros m rest.
           simpl app. change (S n1 + m)%nat with (S (n1 + m)).
           rewrite Walk_loop_step, Hrun. by rewrite Hn1.
Qed.

(** From the loop to the recursion. *)
Lemma preorder_of_loop fuel :
  ∀ paths fs v o,
    Walk_loop V fn hops fuel fs v paths = o → o ≠ NoFuel →
    ∃ d, visit_each V (preorder V fn hops d) fs v paths = o.
Proof.
  induction fuel as [|fuel IH]; intros [|p rest] fs v o H Ho.
  - by exists O.
  - simpl in H. congruence.
  - by exists O.
  - rewrite Walk_loop_step in H.
    destruct (visit_then_cases fs v p)
      as [(o0 & Hs & Hend)|(fs' & v' & cs & Hrun)].
    + rewrite Hend in H. subst o0. exists 1%nat.
      by rewrite visit_each_cons, preorder_step, Hend, and_then_stops.
    + rewrite Hrun in H. destruct (IH _ _ _ _ H Ho) as (d & Hd).
      exists (S d). rewrite visit_each_cons, preorder_step, Hrun.
      rewrite visit_each_app in Hd.
      destruct (visit_each V (preorder V fn hops d) fs' v' cs)
        as [[[fs2 v2] [e|]]| | |]; simpl in *; try done.
      eapply visit_each_mono; [|exact Hd|done].
      intros. by apply preorder_mono.
Qed.

End WalkRefinement.

(** The children as the walk takes them: the names of the directory
    other than [.] and [..], each once, in ascending order, joined to the
    path of the directory. *)
Lemma children_asc_sorted path names :
  ∃ l,
    children_asc path names = map (Join path) l
    ∧ StronglySorted name_le l
    ∧ l ≡ₚ filter (λ p, structural p = false) names
    ∧ Forall (λ p, p ≠ "." ∧ p ≠ "..") l.
Proof.
  exists (sort_asc (filter (λ p, structural p = false) names)).
  split; [done|]. split; [apply sort_asc_sorted|]. split; [apply sort_asc_perm|].
  apply Forall_forall. intros p Hp.
  rewrite sort_asc_perm in Hp. apply list_elem_of_filter in Hp as [Hs _].
  unfold structural in Hs. apply orb_false_elim in Hs as [H1 H2].
  by apply String.eqb_neq in H1, H2.
Qed.

(** C8. Whenever one of them ends, [Walk] (the loop over a stack, as
    in the code) and [preorder] (the recursion: a path first, then its
    children in ascending order with all that is below each, [.] and [..]
    left out, the first error ending everything) end with the same
    result: the same calls of the visitor in the same order, the same
    error or none. In particular the first error that the visitor returns
    ends the walk and is returned. *)
Theorem Walk_is_preorder {V} (fn : V → string → FileInfo → V * option error)
    hops fs name v o :
  o ≠ NoFuel →
  ((∃ fuel, Walk V fn hops fuel fs name v = o)
   ↔ (∃ depth, preorder V fn hops depth fs v name = o))
  ∧ (∀ fs' v' e depth,
       preorder V fn hops depth fs v name = Ret (fs', v', Some e) →
       ∃ fuel, Walk V fn hops fuel fs name v = Ret (fs', v', Some e))
  ∧ (∀ path names, ∃ l,
       children_asc path names = map (Join path) l
       ∧ StronglySorted name_le l
       ∧ l ≡ₚ filter (λ p, structural p = false) names
       ∧ Forall (λ p, p ≠ "." ∧ p ≠ "..") l).
Proof.
  intros Ho.
  assert (∀ o, o ≠ NoFuel →
            (∃ depth, preorder V fn hops depth fs v name = o) →
            ∃ fuel, Walk V fn hops fuel fs name v = o) as Hback.
  { clear o Ho. intros o Ho [d Hd].
    destruct (loop_of_preorder fn hops d [name] fs v o) as (n & Hn); [|done|].
    { by rewrite visit_each_single. }
    exists n. unfold Walk, push. specialize (Hn O []).
    rewrite Nat.add_0_r in Hn. simpl app in Hn. rewrite Hn. apply and_then_Ret. }
  split; [split|split].
  - intros [fuel Hf].
    destruct (preorder_of_loop fn hops fuel [name] fs v o Hf Ho) as (d & Hd).
    exists d. by rewrite visit_each_single in Hd.
  - by apply Hback.
  - intros fs' v' e depth Hd. apply Hback; [done|by exists depth].
  - apply children_asc_sorted.
Qed.

Example Walk_tree :
  (∃ fs', Walk _ record_path 1 8 tree_fs "/" []
          = Ret (fs', ["/"; "/a"; "/a/b"; "/a/x"; "/c"], None))
  ∧ Walk _ fail_at_b 1 8 tree_fs "/" []
    = Ret (walked_fs, ["/"; "/a"; "/a/b"], Some (ErrorString "stop")).
Proof. split; [eexists|]; vm_compute; reflexivity. Qed.

Lemma Walk_is_preorder_witness :
  ∃ depth, preorder _ fail_at_b 1 depth tree_fs [] "/"
           = Ret (walked_fs, ["/"; "/a"; "/a/b"], Some (ErrorString "stop")).
Proof.
  apply (Walk_is_preorder fail_at_b 1 tree_fs "/" []); [discriminate|].
  exists 8%nat. vm_compute. reflexivity.
Defined.
